(** * ibmoonc: the TCP socket FFI layer ([socket_impl.c])

    A shallow embedding of the POSIX branch of [socket_impl.c]: the static
    handle table ([sockets], [socket_count], [next_socket_id]), the helpers
    [store_socket], [find_socket], [remove_socket], [get_socket_error] and
    the four exported operations [ibmoon_socket_connect], [ibmoon_socket_send],
    [ibmoon_socket_receive] and [ibmoon_socket_close].

    The C statics and the part of the operating system the code talks to
    (open descriptors, [errno], the sequence of system calls issued) form one
    explicit state; every C function is a computation in a small state monad
    whose failure case stands for undefined behaviour of the C program (an
    array access outside [sockets], an [FD_SET] of a descriptor outside the
    [fd_set], a signed overflow of an [int] counter).
    What the operating system answers to a call is an input of the
    operation. *)

From Stdlib Require Import ZArith Lia List String.
From stdpp Require Import base option list gmap.

Local Open Scope Z_scope.

(** ** Constants of the source *)

Definition INVALID_SOCKET : Z := -1.
Definition SOCKET_ERROR : Z := -1.

Definition ERROR_NONE : Z := 0.
Definition ERROR_CONNECTION_REFUSED : Z := 1.
Definition ERROR_TIMEOUT : Z := 2.
Definition ERROR_CLOSED : Z := 3.
Definition ERROR_INVALID_SOCKET : Z := 4.
Definition ERROR_UNKNOWN : Z := 5.

Definition MAX_SOCKETS : Z := 256.

(** [int] is 32 bits wide on every platform the file targets. *)
Definition INT_MAX : Z := 2147483647.
Definition INT_MIN : Z := -2147483648.

(** The [errno] values come from the platform's <errno.h>, which is not part
    of the repository: they are a parameter of the development. *)
Class errno_h := Errno_h {
  ECONNREFUSED : Z;
  ETIMEDOUT : Z;
  ECONNRESET : Z;
  EPIPE : Z;
  EINPROGRESS : Z
}.

(** [FD_SETSIZE], the number of descriptors an [fd_set] has room for, comes
    from <sys/select.h>: a parameter as well. *)
Class select_h := Select_h {
  FD_SETSIZE : Z
}.

(** ** System calls and the state *)

(** One entry per call the code issues to the operating system, with the
    arguments that matter and the value the system gave back. *)
Inductive os_call :=
| Sys_socket (ret : Z)
| Sys_fcntl_getfl (fd : Z)
| Sys_fcntl_setfl (fd : Z) (nonblock : bool)
| Sys_inet_pton (host : string) (ret : Z)
| Sys_connect (fd port ret : Z)
| Sys_select (fd timeout_ms ret : Z)
| Sys_getsockopt_so_error (fd err : Z)
| Sys_setsockopt_rcvtimeo (fd timeout_ms : Z)
| Sys_send (fd len ret : Z)
| Sys_recv (fd len ret : Z)
| Sys_close (fd : Z).

#[global] Instance os_call_eq_dec : EqDecision os_call.
Proof. solve_decision. Defined.

Record state := State {
  (* the statics of socket_impl.c *)
  sockets : list Z;
  socket_count : Z;
  next_socket_id : Z;
  (* the operating system, as far as the code observes or changes it *)
  errno : Z;
  open_fds : gset Z;
  nonblock_fds : gset Z;
  trace : list os_call
}.

Definition set_sockets (l : list Z) (st : state) : state :=
  State l (socket_count st) (next_socket_id st)
        (errno st) (open_fds st) (nonblock_fds st) (trace st).
Definition set_socket_count (n : Z) (st : state) : state :=
  State (sockets st) n (next_socket_id st)
        (errno st) (open_fds st) (nonblock_fds st) (trace st).
Definition set_next_socket_id (n : Z) (st : state) : state :=
  State (sockets st) (socket_count st) n
        (errno st) (open_fds st) (nonblock_fds st) (trace st).
Definition set_errno (e : Z) (st : state) : state :=
  State (sockets st) (socket_count st) (next_socket_id st)
        e (open_fds st) (nonblock_fds st) (trace st).
Definition set_open_fds (s : gset Z) (st : state) : state :=
  State (sockets st) (socket_count st) (next_socket_id st)
        (errno st) s (nonblock_fds st) (trace st).
Definition set_nonblock_fds (s : gset Z) (st : state) : state :=
  State (sockets st) (socket_count st) (next_socket_id st)
        (errno st) (open_fds st) s (trace st).
Definition set_trace (t : list os_call) (st : state) : state :=
  State (sockets st) (socket_count st) (next_socket_id st)
        (errno st) (open_fds st) (nonblock_fds st) t.

(** [static SOCKET sockets[MAX_SOCKETS];] has no initialiser: C fills an
    object of static storage duration with zeros.  [socket_count = 0] and
    [next_socket_id = 1] are as written.  The process starts with the usual
    descriptors 0, 1 and 2 open. *)
Definition init_state : state :=
  State (replicate (Z.to_nat MAX_SOCKETS) 0) 0 1
        0 {[ 0; 1; 2 ]} ∅ [].

(** ** The monad: state, and [None] for undefined behaviour *)

Definition M (A : Type) : Type := state -> option (A * state).

Definition ret {A} (a : A) : M A := fun st => Some (a, st).
Definition bind {A B} (m : M A) (k : A -> M B) : M B :=
  fun st => match m st with
            | Some (a, st') => k a st'
            | None => None
            end.
Definition undefined {A} : M A := fun _ => None.
Definition gets {A} (f : state -> A) : M A := fun st => Some (f st, st).
Definition modify (f : state -> state) : M unit := fun st => Some (tt, f st).

Notation "x <- m ;; k" := (bind m (fun x => k))
  (at level 100, m at next level, right associativity).
Notation "m ;;; k" := (bind m (fun _ => k))
  (at level 100, right associativity).

(** C's [%] truncates towards zero: the remainder has the sign of the
    dividend.  That is [Z.rem], not [Z.modulo]. *)
Definition c_rem (a b : Z) : Z := Z.rem a b.

(** [sockets[idx]], read and written.  An index outside the array is
    undefined behaviour. *)
Definition in_bounds (idx : Z) : bool := (0 <=? idx) && (idx <? MAX_SOCKETS).

Definition read_slot (idx : Z) : M Z :=
  fun st =>
    if in_bounds idx then
      match sockets st !! Z.to_nat idx with
      | Some v => Some (v, st)
      | None => None
      end
    else None.

Definition write_slot (idx v : Z) : M unit :=
  fun st =>
    if in_bounds idx && (Z.to_nat idx <? length (sockets st))%nat then
      Some (tt, set_sockets (<[Z.to_nat idx := v]> (sockets st)) st)
    else None.

(** [x++] and [x--] on an [int]: overflow is undefined. *)
Definition int_incr (x : Z) : M Z :=
  if x <? INT_MAX then ret (x + 1) else undefined.
Definition int_decr (x : Z) : M Z :=
  if INT_MIN <? x then ret (x - 1) else undefined.

(** ** The system calls *)

Definition log (c : os_call) : M unit :=
  modify (fun st => set_trace (trace st ++ [c]) st).

(** [socket(AF_INET, SOCK_STREAM, 0)]: the new descriptor is open and in
    blocking mode. *)
Definition sys_socket (r : Z) : M Z :=
  log (Sys_socket r) ;;;
  (if r =? INVALID_SOCKET then ret tt
   else modify (fun st => set_nonblock_fds (nonblock_fds st ∖ {[ r ]})
                            (set_open_fds ({[ r ]} ∪ open_fds st) st))) ;;;
  ret r.

(** [flags = fcntl(sock, F_GETFL, 0); fcntl(sock, F_SETFL, flags | O_NONBLOCK)]
    when [nb] is true, [flags & ~O_NONBLOCK] when it is false. *)
Definition sys_fcntl_nonblock (fd : Z) (nb : bool) : M unit :=
  log (Sys_fcntl_getfl fd) ;;;
  log (Sys_fcntl_setfl fd nb) ;;;
  modify (fun st => set_nonblock_fds
                      (if nb then {[ fd ]} ∪ nonblock_fds st
                       else nonblock_fds st ∖ {[ fd ]}) st).

Definition sys_inet_pton (host : string) (r : Z) : M Z :=
  log (Sys_inet_pton host r) ;;; ret r.

(** A failing call stores its error number in [errno]. *)
Definition sys_connect (fd port r e : Z) : M Z :=
  log (Sys_connect fd port r) ;;;
  (if r =? SOCKET_ERROR then modify (set_errno e) else ret tt) ;;;
  ret r.

(** [FD_ZERO(&write_fds); FD_SET(sock, &write_fds)] (lines 199-201).  An
    [fd_set] is an array of [FD_SETSIZE] bits and [FD_SET] makes no check: a
    descriptor outside [0 .. FD_SETSIZE - 1] is a write outside
    [write_fds], undefined behaviour.  The macros call nothing. *)
Definition in_fd_set `{select_h} (fd : Z) : bool :=
  (0 <=? fd) && (fd <? FD_SETSIZE).

Definition fd_set_add `{select_h} (fd : Z) : M unit :=
  if in_fd_set fd then ret tt else undefined.

Definition sys_select (fd timeout_ms r : Z) : M Z :=
  log (Sys_select fd timeout_ms r) ;;; ret r.

(** [getsockopt(sock, SOL_SOCKET, SO_ERROR, &error, &len)]: the value left
    in [error]. *)
Definition sys_getsockopt_so_error (fd e : Z) : M Z :=
  log (Sys_getsockopt_so_error fd e) ;;; ret e.

Definition sys_setsockopt_rcvtimeo (fd timeout_ms : Z) : M unit :=
  log (Sys_setsockopt_rcvtimeo fd timeout_ms).

Definition sys_send (fd len r e : Z) : M Z :=
  log (Sys_send fd len r) ;;;
  (if r =? SOCKET_ERROR then modify (set_errno e) else ret tt) ;;;
  ret r.

Definition sys_recv (fd len r e : Z) : M Z :=
  log (Sys_recv fd len r) ;;;
  (if r =? SOCKET_ERROR then modify (set_errno e) else ret tt) ;;;
  ret r.

(** [close(fd)] releases the descriptor; when it reports an error ([Some e])
    it also overwrites [errno]. *)
Definition sys_close (fd : Z) (e : option Z) : M unit :=
  log (Sys_close fd) ;;;
  modify (fun st => set_nonblock_fds (nonblock_fds st ∖ {[ fd ]})
                      (set_open_fds (open_fds st ∖ {[ fd ]}) st)) ;;;
  match e with
  | Some e => modify (set_errno e)
  | None => ret tt
  end.

(** ** The operation result *)

(** The three out-parameters [*out_success], [*out_value], [*out_error]. *)
Record result := Result {
  success : Z;
  value : Z;
  error : Z
}.

#[global] Instance result_eq_dec : EqDecision result.
Proof. solve_decision. Defined.

(** What the operating system answers during one [ibmoon_socket_connect]. *)
Record connect_os := Connect_os {
  socket_ret : Z;            (* socket() *)
  inet_pton_ret : Z;         (* inet_pton() *)
  connect_ret : Z;           (* connect() *)
  connect_errno : Z;         (* errno left by a failing connect() *)
  select_ret : Z;            (* select() *)
  so_error : Z;              (* error, after getsockopt(SO_ERROR) *)
  close_errno : option Z     (* errno left by close(), if it fails *)
}.

(** What it answers to [send] or [recv]: the return value, and [errno] if
    the call fails. *)
Record io_os := Io_os {
  io_ret : Z;
  io_errno : Z
}.

Section SocketImpl.

Context `{errno_h} {SH : select_h}.

(** ** The handle table *)

Definition store_socket (sock : Z) : M Z :=
  count <- gets socket_count ;;
  if count >=? MAX_SOCKETS then ret (-1)
  else
    socket_id <- gets next_socket_id ;;
    next <- int_incr socket_id ;;
    modify (set_next_socket_id next) ;;;
    let idx := c_rem socket_id MAX_SOCKETS in
    write_slot idx sock ;;;
    count <- gets socket_count ;;
    count' <- int_incr count ;;
    modify (set_socket_count count') ;;;
    ret socket_id.

Definition find_socket (socket_id : Z) : M Z :=
  let idx := c_rem socket_id MAX_SOCKETS in
  read_slot idx.

Definition remove_socket (socket_id : Z) (close_err : option Z) : M unit :=
  let idx := c_rem socket_id MAX_SOCKETS in
  cur <- read_slot idx ;;
  if negb (cur =? INVALID_SOCKET) then
    fd <- read_slot idx ;;
    sys_close fd close_err ;;;
    write_slot idx INVALID_SOCKET ;;;
    count <- gets socket_count ;;
    count' <- int_decr count ;;
    modify (set_socket_count count')
  else ret tt.

(** The [switch (errno)] of the POSIX branch, on a given error number. *)
Definition socket_error_of (e : Z) : Z :=
  if e =? ECONNREFUSED then ERROR_CONNECTION_REFUSED
  else if e =? ETIMEDOUT then ERROR_TIMEOUT
  else if (e =? ECONNRESET) || (e =? EPIPE) then ERROR_CLOSED
  else ERROR_UNKNOWN.

Definition get_socket_error : M Z :=
  e <- gets errno ;;
  ret (socket_error_of e).

(** ** The operations *)

(** Lines 241-266 of [ibmoon_socket_connect]: back to blocking mode, then
    registration in the table. *)
Definition connect_tail (os : connect_os) (sock : Z) : M result :=
  sys_fcntl_nonblock sock false ;;;
  socket_id <- store_socket sock ;;
  if socket_id <? 0 then
    sys_close sock (close_errno os) ;;;
    ret (Result 0 0 ERROR_UNKNOWN)
  else ret (Result 1 socket_id ERROR_NONE).

Definition ibmoon_socket_connect
    (host : string) (port timeout_ms : Z) (os : connect_os) : M result :=
  sock <- sys_socket (socket_ret os) ;;
  if sock =? INVALID_SOCKET then ret (Result 0 0 ERROR_UNKNOWN)
  else
    sys_fcntl_nonblock sock true ;;;
    parsed <- sys_inet_pton host (inet_pton_ret os) ;;
    if parsed <=? 0 then
      sys_close sock (close_errno os) ;;;
      ret (Result 0 0 ERROR_UNKNOWN)
    else
      res <- sys_connect sock port (connect_ret os) (connect_errno os) ;;
      if res =? SOCKET_ERROR then
        e <- gets errno ;;
        if negb (e =? EINPROGRESS) then
          sys_close sock (close_errno os) ;;;
          err <- get_socket_error ;;
          ret (Result 0 0 err)
        else if timeout_ms >? 0 then
          fd_set_add sock ;;;
          res <- sys_select sock timeout_ms (select_ret os) ;;
          if res <=? 0 then
            sys_close sock (close_errno os) ;;;
            ret (Result 0 0 (if res =? 0 then ERROR_TIMEOUT else ERROR_UNKNOWN))
          else
            pending <- sys_getsockopt_so_error sock (so_error os) ;;
            if negb (pending =? 0) then
              sys_close sock (close_errno os) ;;;
              ret (Result 0 0 ERROR_CONNECTION_REFUSED)
            else connect_tail os sock
        else connect_tail os sock
      else connect_tail os sock.

Definition ibmoon_socket_send
    (socket_id length : Z) (os : io_os) : M result :=
  sock <- find_socket socket_id ;;
  if sock =? INVALID_SOCKET then ret (Result 0 0 ERROR_INVALID_SOCKET)
  else
    bytes_sent <- sys_send sock length (io_ret os) (io_errno os) ;;
    if bytes_sent =? SOCKET_ERROR then
      err <- get_socket_error ;;
      ret (Result 0 0 err)
    else ret (Result 1 bytes_sent ERROR_NONE).

Definition ibmoon_socket_receive
    (socket_id buffer_len timeout_ms : Z) (os : io_os) : M result :=
  sock <- find_socket socket_id ;;
  if sock =? INVALID_SOCKET then ret (Result 0 0 ERROR_INVALID_SOCKET)
  else
    (if timeout_ms >? 0 then sys_setsockopt_rcvtimeo sock timeout_ms
     else ret tt) ;;;
    bytes_received <- sys_recv sock buffer_len (io_ret os) (io_errno os) ;;
    if bytes_received =? SOCKET_ERROR then
      err <- get_socket_error ;;
      ret (Result 0 0 err)
    else if bytes_received =? 0 then ret (Result 0 0 ERROR_CLOSED)
    else ret (Result 1 bytes_received ERROR_NONE).

Definition ibmoon_socket_close
    (socket_id : Z) (close_err : option Z) : M result :=
  sock <- find_socket socket_id ;;
  if sock =? INVALID_SOCKET then ret (Result 0 0 ERROR_INVALID_SOCKET)
  else
    remove_socket socket_id close_err ;;;
    ret (Result 1 0 ERROR_NONE).

(** ** Sequences of calls *)

(** One call of the foreign interface, with the system's answers. *)
Inductive call :=
| Connect (host : string) (port timeout_ms : Z) (os : connect_os)
| Send (socket_id length : Z) (os : io_os)
| Receive (socket_id buffer_len timeout_ms : Z) (os : io_os)
| Close (socket_id : Z) (close_err : option Z).

Definition step (c : call) : M result :=
  match c with
  | Connect host port timeout_ms os =>
      ibmoon_socket_connect host port timeout_ms os
  | Send socket_id length os => ibmoon_socket_send socket_id length os
  | Receive socket_id buffer_len timeout_ms os =>
      ibmoon_socket_receive socket_id buffer_len timeout_ms os
  | Close socket_id close_err => ibmoon_socket_close socket_id close_err
  end.

(** The calls of a single-threaded caller, one after the other; the results
    in the order of the calls. *)
Fixpoint run (cs : list call) : M (list result) :=
  match cs with
  | [] => ret []
  | c :: cs' =>
      r <- step c ;;
      rs <- run cs' ;;
      ret (r :: rs)
  end.

End SocketImpl.

(** ** Predicates used in the statements *)

(** A well-formed result triple: success with [ERROR_NONE], or failure with
    one of the five other error kinds. *)
Definition result_shape (r : result) : Prop :=
  (success r = 1 ∧ error r = ERROR_NONE) ∨
  (success r = 0 ∧
   (error r = ERROR_CONNECTION_REFUSED ∨ error r = ERROR_TIMEOUT ∨
    error r = ERROR_CLOSED ∨ error r = ERROR_INVALID_SOCKET ∨
    error r = ERROR_UNKNOWN)).

(** The statics as a running program can have them: the array has its
    [MAX_SOCKETS] cells, and the counters are away from the ends of [int]
    so that [next_socket_id++] and [socket_count--] are defined. *)
Definition table_ok (st : state) : Prop :=
  length (sockets st) = Z.to_nat MAX_SOCKETS ∧
  0 <= next_socket_id st < INT_MAX ∧
  INT_MIN < socket_count st.

(** Number of cells of [sockets] that do not hold [INVALID_SOCKET]. *)
Definition occupied_slots (st : state) : Z :=
  Z.of_nat (length (filter (λ v : Z, v ≠ INVALID_SOCKET) (sockets st))).

(** The cell [sockets[socket_id % MAX_SOCKETS]] holds [v]. *)
Definition slot_holds (st : state) (socket_id v : Z) : Prop :=
  in_bounds (c_rem socket_id MAX_SOCKETS) = true ∧
  sockets st !! Z.to_nat (c_rem socket_id MAX_SOCKETS) = Some v.

(** The cells of the table and the descriptors: every cell other than the
    sentinel holds an open descriptor, and no two cells hold the same one. *)
Definition table_inv (st : state) : Prop :=
  length (sockets st) = Z.to_nat MAX_SOCKETS ∧
  (∀ i fd, sockets st !! i = Some fd → fd ≠ INVALID_SOCKET → fd ∈ open_fds st) ∧
  (∀ i j fd, sockets st !! i = Some fd → sockets st !! j = Some fd →
             fd ≠ INVALID_SOCKET → i = j).

(** The statics are the same in both states. *)
Definition same_table (st st' : state) : Prop :=
  sockets st' = sockets st ∧
  socket_count st' = socket_count st ∧
  next_socket_id st' = next_socket_id st.

(** The state [remove_socket] leaves when the cell of [socket_id] held the
    descriptor [fd]: [close(fd)] was called, the cell reset and the count
    decremented. *)
Definition released (socket_id fd : Z) (close_err : option Z) (st : state) : state :=
  State (<[Z.to_nat (c_rem socket_id MAX_SOCKETS) := INVALID_SOCKET]> (sockets st))
        (socket_count st - 1) (next_socket_id st)
        (match close_err with Some e => e | None => errno st end)
        (open_fds st ∖ {[ fd ]}) (nonblock_fds st ∖ {[ fd ]})
        (trace st ++ [Sys_close fd]).

Section Paths.

Context `{errno_h} {SH : select_h}.

(** The system's answers that lead [ibmoon_socket_connect] to line 251,
    [store_socket(sock)]: a socket was created, the address parsed, and the
    connection either completed at once, or is in progress and was not
    waited for ([timeout_ms <= 0]), or is in progress and [select] and
    [SO_ERROR] reported it established. *)
Definition reaches_registration (timeout_ms : Z) (os : connect_os) : bool :=
  negb (socket_ret os =? INVALID_SOCKET) &&
  (0 <? inet_pton_ret os) &&
  (negb (connect_ret os =? SOCKET_ERROR) ||
   ((connect_errno os =? EINPROGRESS) &&
    (negb (timeout_ms >? 0) ||
     ((0 <? select_ret os) && (so_error os =? 0))))).

(** The answers that lead [ibmoon_socket_connect] into the bounded wait,
    and so to [FD_SET(sock, &write_fds)] at line 201: [connect] is in
    progress and [timeout_ms > 0]. *)
Definition waits (timeout_ms : Z) (os : connect_os) : bool :=
  negb (socket_ret os =? INVALID_SOCKET) &&
  (0 <? inet_pton_ret os) &&
  (connect_ret os =? SOCKET_ERROR) &&
  (connect_errno os =? EINPROGRESS) &&
  (timeout_ms >? 0).

(** The wait, if the call makes one, is on a descriptor that [write_fds]
    has room for. *)
Definition wait_defined (timeout_ms : Z) (os : connect_os) : bool :=
  negb (waits timeout_ms os) || in_fd_set (socket_ret os).

(** The answers with which [connect] reports that the connection is in
    progress. *)
Definition in_progress (os : connect_os) : Prop :=
  socket_ret os ≠ INVALID_SOCKET ∧
  0 < inet_pton_ret os ∧
  connect_ret os = SOCKET_ERROR ∧
  connect_errno os = EINPROGRESS.

(** The system calls of [ibmoon_socket_connect] up to and including
    [connect]. *)
Definition connect_prefix (host : string) (port : Z) (os : connect_os)
  : list os_call :=
  [ Sys_socket (socket_ret os);
    Sys_fcntl_getfl (socket_ret os);
    Sys_fcntl_setfl (socket_ret os) true;
    Sys_inet_pton host (inet_pton_ret os);
    Sys_connect (socket_ret os) port (connect_ret os) ].

(** The two calls of the bounded wait (lines 207 and 225), issued only when
    [connect] failed and [timeout_ms > 0]. *)
Definition connect_wait (timeout_ms : Z) (os : connect_os) : list os_call :=
  if (connect_ret os =? SOCKET_ERROR) && (timeout_ms >? 0) then
    [ Sys_select (socket_ret os) timeout_ms (select_ret os);
      Sys_getsockopt_so_error (socket_ret os) (so_error os) ]
  else [].

(** The state in which [ibmoon_socket_connect] arrives at line 241 when the
    answers lead it there: the statics untouched, the new socket open and
    still non-blocking. *)
Definition at_registration
    (host : string) (port timeout_ms : Z) (os : connect_os) (st : state)
  : state :=
  State (sockets st) (socket_count st) (next_socket_id st)
        (if connect_ret os =? SOCKET_ERROR then connect_errno os else errno st)
        ({[ socket_ret os ]} ∪ open_fds st)
        ({[ socket_ret os ]} ∪ nonblock_fds st ∖ {[ socket_ret os ]})
        (trace st ++ connect_prefix host port os ++ connect_wait timeout_ms os).

(** A call of the bounded readiness wait or of the pending-error check. *)
Definition is_wait_call (c : os_call) : bool :=
  match c with
  | Sys_select _ _ _ | Sys_getsockopt_so_error _ _ => true
  | _ => false
  end.

(** A successful [Connect] whose identifier lands in the slot of
    [socket_id]. *)
Definition reoccupies (socket_id : Z) (c : call) (r : result) : bool :=
  match c with
  | Connect _ _ _ _ =>
      (success r =? 1) &&
      (c_rem (value r) MAX_SOCKETS =? c_rem socket_id MAX_SOCKETS)
  | _ => false
  end.

(** [socket()] hands out a descriptor that is not open yet. *)
Definition fresh_descriptor (st : state) (c : call) : Prop :=
  match c with
  | Connect _ _ _ os => socket_ret os ∉ open_fds st
  | _ => True
  end.

(** A call whose array accesses and counter updates are all defined. *)
Definition call_defined (st : state) (c : call) : Prop :=
  table_ok st ∧
  match c with
  | Connect _ _ timeout_ms os => wait_defined timeout_ms os = true
  | Send socket_id _ _ | Receive socket_id _ _ _ | Close socket_id _ =>
      0 <= socket_id
  end.

End Paths.

(** No call of the sequence [cs], with results [rs], is a successful
    connect into the slot of [socket_id]. *)
Definition no_reoccupation
    (socket_id : Z) (cs : list call) (rs : list result) : Prop :=
  ∀ c r, (c, r) ∈ zip cs rs → reoccupies socket_id c r = false.

(** The error numbers of Linux. *)
Definition linux_errno : errno_h :=
  {| ECONNREFUSED := 111; ETIMEDOUT := 110; ECONNRESET := 104;
     EPIPE := 32; EINPROGRESS := 115 |}.

(** [FD_SETSIZE] of Linux. *)
Definition linux_select : select_h := {| FD_SETSIZE := 1024 |}.

(** ** Concrete scenarios *)

(** A connect that completes at once on the new descriptor [fd]. *)
Definition fresh_connect (fd : Z) : call :=
  Connect "127.0.0.1" 9999 0 (Connect_os fd 1 0 0 0 0 None).

(** [n] such connects, on the descriptors [first], [first + 1], ... *)
Definition connects (first : Z) (n : nat) : list call :=
  map (λ i, fresh_connect (first + Z.of_nat i)) (seq 0 n).

Definition results_of (cs : list call) (st : state) : option (list result) :=
  fst <$> run (H := linux_errno) (SH := linux_select) cs st.

Definition state_after (cs : list call) (st : state) : state :=
  match run (H := linux_errno) (SH := linux_select) cs st with
  | Some (_, st') => st'
  | None => st
  end.

(** One connection: identifier 1 on descriptor 3. *)
Definition one_connection : state := state_after [fresh_connect 3] init_state.

(** 256 connections and no close: identifiers 1 to 256 on the descriptors 3
    to 258. *)
Definition full_table : state := state_after (connects 3 256) init_state.

(** The same, after identifier 2 was closed: there is room again, and the
    next identifier, 257, falls on the cell of identifier 1. *)
Definition wrapped_table : state :=
  state_after (connects 3 256 ++ [Close 2 None]) init_state.

(** Identifier 1 connected and closed again. *)
Definition closed_once : state :=
  state_after [fresh_connect 3; Close 1 None] init_state.

(** A connect the system reports as in progress, on descriptor 3. *)
Definition pending_os (sel so_err : Z) : connect_os :=
  Connect_os 3 1 (-1) (EINPROGRESS (errno_h := linux_errno)) sel so_err None.

(** ** Further notions: identifiers handed out, cells written, fresh runs *)

(** The identifiers that the successful connects of a sequence of calls
    returned, in the order of the calls. *)
Definition connect_ids (cs : list call) (rs : list result) : list Z :=
  omap (λ p : call * result,
          match p.1 with
          | Connect _ _ _ _ =>
              if success p.2 =? 1 then Some (value p.2) else None
          | _ => None
          end) (zip cs rs).

(** The one cell a call may write: that of the identifier a successful
    connect returns, or of the identifier a successful close was given. *)
Definition touched_cell (c : call) (r : result) : option nat :=
  match c with
  | Connect _ _ _ _ =>
      if success r =? 1 then Some (Z.to_nat (c_rem (value r) MAX_SOCKETS))
      else None
  | Close socket_id _ =>
      if success r =? 1 then Some (Z.to_nat (c_rem socket_id MAX_SOCKETS))
      else None
  | _ => None
  end.

(** No call of the sequence [cs], with results [rs], writes cell [i]. *)
Definition untouched (i : nat) (cs : list call) (rs : list result) : Prop :=
  ∀ c r, (c, r) ∈ zip cs rs → touched_cell c r ≠ Some i.

Section Runs.

Context `{errno_h} {SH : select_h}.

(** Along the calls [cs] from [st], every [socket()] hands out a descriptor
    that is not open at that moment. *)
Fixpoint fresh_run (cs : list call) (st : state) : Prop :=
  match cs with
  | [] => True
  | c :: cs' =>
      fresh_descriptor st c ∧
      match step c st with
      | Some (_, st1) => fresh_run cs' st1
      | None => True
      end
  end.

End Runs.

(** Every cell closed once, from the start of the program: the table holds
    the sentinel everywhere. *)
Definition all_closed : state :=
  state_after (map (λ i, Close (Z.of_nat i) None) (seq 0 256)) init_state.

(** The answers of a connect that completes at once on descriptor [fd]. *)
Definition ready_os (fd : Z) : connect_os := Connect_os fd 1 0 0 0 0 None.

(** * Properties *)

(** ** Proof tools *)

Ltac unfold_consts :=
  unfold INVALID_SOCKET, SOCKET_ERROR, MAX_SOCKETS, INT_MAX, INT_MIN,
    ERROR_NONE, ERROR_CONNECTION_REFUSED, ERROR_TIMEOUT, ERROR_CLOSED,
    ERROR_INVALID_SOCKET, ERROR_UNKNOWN in *.

Ltac unfold_monad :=
  unfold bind, ret, gets, modify, undefined in *.

Ltac unfold_sys :=
  unfold sys_socket, sys_fcntl_nonblock, sys_inet_pton, sys_connect,
    sys_select, sys_getsockopt_so_error, sys_setsockopt_rcvtimeo,
    sys_send, sys_recv, sys_close, fd_set_add, in_fd_set, log in *.

(** Run the monadic code of the goal as far as it goes without deciding a
    test: only the monad, the system calls, the setters and the projections
    are unfolded, never an integer or a set operation. *)
Ltac mcbn :=
  cbn [bind ret gets modify undefined log
       sys_socket sys_fcntl_nonblock sys_inet_pton sys_connect sys_select
       sys_getsockopt_so_error sys_setsockopt_rcvtimeo sys_send sys_recv
       sys_close fd_set_add get_socket_error
       set_sockets set_socket_count set_next_socket_id set_errno
       set_open_fds set_nonblock_fds set_trace
       sockets socket_count next_socket_id errno open_fds nonblock_fds trace
       socket_ret inet_pton_ret connect_ret connect_errno select_ret
       so_error close_errno io_ret io_errno
       success value error negb andb orb].

(** Decide one integer test of the goal with the hypotheses at hand; both
    branches are kept when the hypotheses leave it open. *)
Ltac ztest1 :=
  match goal with
  | |- context [?a >? ?b] => rewrite (Z.gtb_ltb a b)
  | |- context [?a >=? ?b] => rewrite (Z.geb_leb a b)
  | |- context [?a =? ?b] =>
      destruct (Z.eqb_spec a b); try (exfalso; unfold_consts; lia)
  | |- context [?a <? ?b] =>
      destruct (Z.ltb_spec a b); try (exfalso; unfold_consts; lia)
  | |- context [?a <=? ?b] =>
      destruct (Z.leb_spec a b); try (exfalso; unfold_consts; lia)
  end.

Ltac mrun := mcbn; repeat (ztest1; mcbn).

Section Properties.

Context `{errno_h} {SH : select_h}.

(** ** The monad *)

Lemma bind_Some {A B} (m : M A) (k : A → M B) st b st2 :
  bind m k st = Some (b, st2) ↔
  ∃ a st1, m st = Some (a, st1) ∧ k a st1 = Some (b, st2).
Proof.
  unfold bind. destruct (m st) as [[a st1]|]; split.
  - eauto.
  - by intros (a' & s' & [= <- <-] & Hk).
  - done.
  - by intros (a' & s' & Hm & _).
Qed.

Lemma bind_eq {A B} (m : M A) (k : A → M B) st a st1 :
  m st = Some (a, st1) → bind m k st = k a st1.
Proof. unfold bind. by intros ->. Qed.

(** ** Descriptor sets *)

Lemma not_elem_of_remove (x : Z) (X : gset Z) : x ∉ X ∖ {[ x ]}.
Proof. intros [_ Hx]%elem_of_difference. apply Hx. by apply elem_of_singleton. Qed.

Lemma elem_of_add_remove (x y : Z) (X : gset Z) :
  y ∈ X → y ≠ x → y ∈ ({[ x ]} ∪ X) ∖ {[ x ]}.
Proof.
  intros Hy Hne. apply elem_of_difference. split.
  - by apply elem_of_union_r.
  - by intros ?%elem_of_singleton.
Qed.

(** ** Arithmetic of the slot index *)

Lemma c_rem_nonneg (a : Z) :
  0 <= a → c_rem a MAX_SOCKETS = a mod MAX_SOCKETS.
Proof. intros Ha. unfold c_rem. apply Z.rem_mod_nonneg; unfold_consts; lia. Qed.

Lemma c_rem_in_bounds (a : Z) :
  0 <= a → in_bounds (c_rem a MAX_SOCKETS) = true.
Proof.
  intros Ha. rewrite c_rem_nonneg by done.
  pose proof (Z.mod_pos_bound a MAX_SOCKETS ltac:(done)) as [? ?].
  unfold in_bounds. apply andb_true_iff. split; [apply Z.leb_le | apply Z.ltb_lt]; lia.
Qed.

Lemma c_rem_congr (a b k : Z) :
  0 <= a → 0 <= b → b = a + MAX_SOCKETS * k →
  c_rem a MAX_SOCKETS = c_rem b MAX_SOCKETS.
Proof.
  intros Ha Hb ->. rewrite !c_rem_nonneg by done.
  rewrite Z.mul_comm. by rewrite Z_mod_plus_full.
Qed.

(** The remainder of a negative identifier is not a cell of the array,
    unless the identifier is a multiple of [MAX_SOCKETS]. *)
Lemma c_rem_negative (a : Z) :
  a < 0 → c_rem a MAX_SOCKETS ≠ 0 → in_bounds (c_rem a MAX_SOCKETS) = false.
Proof.
  intros Ha Hnz. unfold c_rem in *.
  pose proof (Z.rem_nonpos a MAX_SOCKETS ltac:(done) ltac:(lia)).
  unfold in_bounds. apply andb_false_iff. left. apply Z.leb_gt. lia.
Qed.

(** ** Reading and writing the array *)

Lemma read_slot_Some (idx v : Z) st st' :
  read_slot idx st = Some (v, st') ↔
  st' = st ∧ in_bounds idx = true ∧ sockets st !! Z.to_nat idx = Some v.
Proof.
  unfold read_slot. split.
  - destruct (in_bounds idx); [|done].
    destruct (sockets st !! Z.to_nat idx) as [w|]; [|done].
    by intros [= -> ->].
  - by intros (-> & -> & ->).
Qed.

Lemma in_bounds_lt (idx : Z) st :
  in_bounds idx = true → length (sockets st) = Z.to_nat MAX_SOCKETS →
  (Z.to_nat idx < length (sockets st))%nat.
Proof.
  unfold in_bounds. intros [?%Z.leb_le ?%Z.ltb_lt]%andb_true_iff ->. lia.
Qed.

Lemma write_slot_lt (idx v : Z) st :
  in_bounds idx = true → (Z.to_nat idx < length (sockets st))%nat →
  write_slot idx v st =
    Some (tt, set_sockets (<[Z.to_nat idx := v]> (sockets st)) st).
Proof.
  intros Hb Hlt%Nat.ltb_lt. unfold write_slot. by rewrite Hb, Hlt.
Qed.

Lemma write_slot_ok (idx v : Z) st :
  in_bounds idx = true → length (sockets st) = Z.to_nat MAX_SOCKETS →
  write_slot idx v st =
    Some (tt, set_sockets (<[Z.to_nat idx := v]> (sockets st)) st).
Proof.
  intros Hb Hl. apply write_slot_lt; [done|]. by apply in_bounds_lt.
Qed.

Lemma sys_close_eq (fd : Z) (e : option Z) st :
  sys_close fd e st =
    Some (tt, State (sockets st) (socket_count st) (next_socket_id st)
                    (match e with Some e' => e' | None => errno st end)
                    (open_fds st ∖ {[ fd ]}) (nonblock_fds st ∖ {[ fd ]})
                    (trace st ++ [Sys_close fd])).
Proof. by destruct e. Qed.

Lemma find_socket_Some (socket_id v : Z) st st' :
  find_socket socket_id st = Some (v, st') ↔ st' = st ∧ slot_holds st socket_id v.
Proof. unfold find_socket, slot_holds. apply read_slot_Some. Qed.

Lemma find_socket_holds (socket_id v : Z) st :
  slot_holds st socket_id v → find_socket socket_id st = Some (v, st).
Proof. intros. by apply find_socket_Some. Qed.

Lemma find_socket_total (socket_id : Z) st :
  0 <= socket_id → length (sockets st) = Z.to_nat MAX_SOCKETS →
  ∃ v, find_socket socket_id st = Some (v, st).
Proof.
  intros Hid Hl. pose proof (c_rem_in_bounds _ Hid) as Hb.
  destruct (lookup_lt_is_Some_2 (sockets st) _ (in_bounds_lt _ st Hb Hl)) as [v Hv].
  exists v. by apply find_socket_holds.
Qed.

(** A negative identifier that is no multiple of [MAX_SOCKETS] indexes
    before the start of the array. *)
Lemma find_socket_negative (socket_id : Z) st :
  socket_id < 0 → c_rem socket_id MAX_SOCKETS ≠ 0 →
  find_socket socket_id st = None.
Proof.
  intros Hneg Hnz. unfold find_socket, read_slot.
  by rewrite c_rem_negative.
Qed.

(** ** [store_socket] *)

Lemma store_socket_full (sock : Z) st :
  MAX_SOCKETS <= socket_count st → store_socket sock st = Some (-1, st).
Proof.
  intros Hfull. unfold store_socket. unfold_monad.
  rewrite Z.geb_leb. by destruct (Z.leb_spec MAX_SOCKETS (socket_count st)); [|lia].
Qed.

Lemma store_socket_ok (sock : Z) st :
  socket_count st < MAX_SOCKETS →
  0 <= next_socket_id st < INT_MAX →
  length (sockets st) = Z.to_nat MAX_SOCKETS →
  store_socket sock st =
    Some (next_socket_id st,
          State (<[Z.to_nat (next_socket_id st mod MAX_SOCKETS) := sock]> (sockets st))
                (socket_count st + 1) (next_socket_id st + 1)
                (errno st) (open_fds st) (nonblock_fds st) (trace st)).
Proof.
  intros Hc [Hn0 Hn] Hl.
  pose proof (c_rem_in_bounds _ Hn0) as Hb.
  unfold store_socket.
  rewrite (bind_eq _ _ st (socket_count st) st) by done.
  rewrite Z.geb_leb. destruct (Z.leb_spec MAX_SOCKETS (socket_count st)); [lia|].
  rewrite (bind_eq _ _ st (next_socket_id st) st) by done.
  unfold int_incr at 1. destruct (Z.ltb_spec (next_socket_id st) INT_MAX); [|lia].
  unfold_monad. cbn.
  rewrite write_slot_ok by done. cbn.
  unfold int_incr. destruct (Z.ltb_spec (socket_count st) INT_MAX); [|unfold_consts; lia].
  cbn. by rewrite c_rem_nonneg.
Qed.

Lemma store_socket_inv (sock socket_id : Z) st st' :
  store_socket sock st = Some (socket_id, st') →
  (MAX_SOCKETS <= socket_count st ∧ socket_id = -1 ∧ st' = st) ∨
  (socket_count st < MAX_SOCKETS ∧ socket_id = next_socket_id st ∧
   in_bounds (c_rem socket_id MAX_SOCKETS) = true ∧
   st' = State (<[Z.to_nat (c_rem socket_id MAX_SOCKETS) := sock]> (sockets st))
               (socket_count st + 1) (next_socket_id st + 1)
               (errno st) (open_fds st) (nonblock_fds st) (trace st)).
Proof.
  unfold store_socket. intros Hs.
  apply bind_Some in Hs as (c & s0 & [= <- <-] & Hs).
  rewrite Z.geb_leb in Hs.
  destruct (Z.leb_spec MAX_SOCKETS (socket_count st)) as [Hfull|Hroom].
  { injection Hs as <- <-. by left. }
  right.
  apply bind_Some in Hs as (id & s0 & [= <- <-] & Hs).
  apply bind_Some in Hs as (next & s0 & Hnext & Hs).
  unfold int_incr in Hnext.
  destruct (next_socket_id st <? INT_MAX); [injection Hnext as <- <-|done].
  apply bind_Some in Hs as ([] & s1 & [= <-] & Hs).
  apply bind_Some in Hs as ([] & s2 & Hw & Hs).
  unfold write_slot in Hw.
  destruct (in_bounds (c_rem (next_socket_id st) MAX_SOCKETS)) eqn:Hb; [|done].
  destruct (_ <? _)%nat in Hw; [injection Hw as <-|done].
  apply bind_Some in Hs as (c & s0 & [= <- <-] & Hs).
  apply bind_Some in Hs as (c' & s0 & Hc' & Hs).
  unfold int_incr in Hc'. cbn in Hc'.
  destruct (socket_count st <? INT_MAX); [injection Hc' as <- <-|done].
  apply bind_Some in Hs as ([] & s3 & [= <-] & Hs).
  injection Hs as <- <-. done.
Qed.

(** ** [remove_socket] and [ibmoon_socket_close] *)

Lemma remove_socket_occupied (socket_id fd : Z) close_err st :
  slot_holds st socket_id fd → fd ≠ INVALID_SOCKET →
  INT_MIN < socket_count st →
  remove_socket socket_id close_err st =
    Some (tt, released socket_id fd close_err st).
Proof.
  intros [Hb Hfd] Hne Hc.
  pose proof (lookup_lt_Some _ _ _ Hfd) as Hlt.
  unfold remove_socket.
  rewrite (bind_eq _ _ st fd st) by by apply read_slot_Some.
  destruct (Z.eqb_spec fd INVALID_SOCKET) as [|_]; [done|]. cbn [negb].
  rewrite (bind_eq _ _ st fd st) by by apply read_slot_Some.
  rewrite (bind_eq _ _ _ _ _ (sys_close_eq fd close_err st)).
  erewrite bind_eq by by apply write_slot_lt.
  unfold int_decr, released. unfold_monad. cbn.
  by destruct (Z.ltb_spec INT_MIN (socket_count st)); [|lia].
Qed.

Lemma remove_socket_empty (socket_id : Z) close_err st :
  slot_holds st socket_id INVALID_SOCKET →
  remove_socket socket_id close_err st = Some (tt, st).
Proof.
  intros Hs. unfold remove_socket.
  rewrite (bind_eq _ _ st INVALID_SOCKET st); [done|].
  apply read_slot_Some. by destruct Hs.
Qed.

Lemma close_occupied (socket_id fd : Z) close_err st :
  slot_holds st socket_id fd → fd ≠ INVALID_SOCKET →
  INT_MIN < socket_count st →
  ibmoon_socket_close socket_id close_err st =
    Some (Result 1 0 ERROR_NONE, released socket_id fd close_err st).
Proof.
  intros Hs Hne Hc. unfold ibmoon_socket_close.
  rewrite (bind_eq _ _ st fd st) by by apply find_socket_holds.
  destruct (Z.eqb_spec fd INVALID_SOCKET) as [|_]; [done|].
  by rewrite (bind_eq _ _ _ _ _ (remove_socket_occupied _ _ _ _ Hs Hne Hc)).
Qed.

Lemma released_slot (socket_id fd : Z) close_err st :
  slot_holds st socket_id fd →
  slot_holds (released socket_id fd close_err st) socket_id INVALID_SOCKET.
Proof.
  intros [Hb Hfd]. split; [done|]. cbn.
  apply list_lookup_insert_eq. by eapply lookup_lt_Some.
Qed.

(** ** The sentinel: every operation refuses the identifier *)

Lemma send_invalid (socket_id length : Z) os st :
  slot_holds st socket_id INVALID_SOCKET →
  ibmoon_socket_send socket_id length os st =
    Some (Result 0 0 ERROR_INVALID_SOCKET, st).
Proof.
  intros Hs. unfold ibmoon_socket_send.
  by rewrite (bind_eq _ _ _ _ _ (find_socket_holds _ _ _ Hs)).
Qed.

Lemma receive_invalid (socket_id buffer_len timeout_ms : Z) os st :
  slot_holds st socket_id INVALID_SOCKET →
  ibmoon_socket_receive socket_id buffer_len timeout_ms os st =
    Some (Result 0 0 ERROR_INVALID_SOCKET, st).
Proof.
  intros Hs. unfold ibmoon_socket_receive.
  by rewrite (bind_eq _ _ _ _ _ (find_socket_holds _ _ _ Hs)).
Qed.

Lemma close_invalid (socket_id : Z) close_err st :
  slot_holds st socket_id INVALID_SOCKET →
  ibmoon_socket_close socket_id close_err st =
    Some (Result 0 0 ERROR_INVALID_SOCKET, st).
Proof.
  intros Hs. unfold ibmoon_socket_close.
  by rewrite (bind_eq _ _ _ _ _ (find_socket_holds _ _ _ Hs)).
Qed.


(** ** [ibmoon_socket_connect]: the way to registration *)

Lemma connect_reaches (host : string) (port timeout_ms : Z) os st :
  reaches_registration timeout_ms os = true →
  wait_defined timeout_ms os = true →
  ibmoon_socket_connect host port timeout_ms os st =
    connect_tail os (socket_ret os) (at_registration host port timeout_ms os st).
Proof.
  unfold reaches_registration, wait_defined, waits.
  unfold at_registration, connect_wait, connect_prefix.
  unfold ibmoon_socket_connect. destruct os as [sock pton cres cerr sel soerr cl].
  unfold_sys. mrun.
  all: intros Hr Hw; try discriminate Hr; try discriminate Hw.
  all: rewrite <- ?app_assoc; cbn [app].
  all: try done.
Qed.

(** Past [FD_SETSIZE] the wait is a write outside [write_fds]: the call
    has no defined result. *)
Lemma connect_wait_undefined (host : string) (port timeout_ms : Z) os st :
  wait_defined timeout_ms os = false →
  ibmoon_socket_connect host port timeout_ms os st = None.
Proof.
  unfold wait_defined, waits.
  unfold ibmoon_socket_connect. destruct os as [sock pton cres cerr sel soerr cl].
  unfold_sys. mrun.
  all: intros Hw; try discriminate Hw.
  all: done.
Qed.

Lemma connect_Some_wait_defined
    (host : string) (port timeout_ms : Z) os st r st' :
  ibmoon_socket_connect host port timeout_ms os st = Some (r, st') →
  wait_defined timeout_ms os = true.
Proof.
  intros Hr. destruct (wait_defined timeout_ms os) eqn:Hw; [done|].
  by rewrite connect_wait_undefined in Hr.
Qed.


Lemma connect_not_reaches (host : string) (port timeout_ms : Z) os st :
  reaches_registration timeout_ms os = false →
  wait_defined timeout_ms os = true →
  ∃ r st', ibmoon_socket_connect host port timeout_ms os st = Some (r, st') ∧
           same_table st st' ∧ success r = 0 ∧ value r = 0 ∧
           (socket_ret os ≠ INVALID_SOCKET → socket_ret os ∉ open_fds st') ∧
           (∀ fd, fd ∈ open_fds st → fd ≠ socket_ret os → fd ∈ open_fds st').
Proof.
  unfold reaches_registration, wait_defined, waits.
  unfold ibmoon_socket_connect, same_table.
  destruct os as [sock pton cres cerr sel soerr cl].
  unfold_sys. mrun.
  all: intros Hr Hw; try discriminate Hr; try discriminate Hw.
  all: destruct cl; mcbn; do 2 eexists; (split; [reflexivity|]); mcbn.
  all: split_and!; try done.
  all: first [ intros _; apply not_elem_of_remove
             | intros fd Hfd Hne; by apply elem_of_add_remove ].
Qed.

(** ** [connect_tail]: registration *)

Lemma connect_tail_full os (sock : Z) st :
  MAX_SOCKETS <= socket_count st →
  connect_tail os sock st =
    Some (Result 0 0 ERROR_UNKNOWN,
          State (sockets st) (socket_count st) (next_socket_id st)
                (match close_errno os with Some e => e | None => errno st end)
                (open_fds st ∖ {[ sock ]})
                ((nonblock_fds st ∖ {[ sock ]}) ∖ {[ sock ]})
                (trace st ++ [Sys_fcntl_getfl sock; Sys_fcntl_setfl sock false;
                              Sys_close sock])).
Proof.
  intros Hfull. unfold connect_tail.
  erewrite bind_eq by reflexivity.
  erewrite bind_eq by by apply store_socket_full.
  change (-1 <? 0) with true. cbv iota.
  erewrite bind_eq by apply sys_close_eq.
  unfold sys_fcntl_nonblock, log. mcbn.
  by rewrite <- !app_assoc.
Qed.

Lemma connect_tail_ok os (sock : Z) st :
  socket_count st < MAX_SOCKETS → table_ok st →
  connect_tail os sock st =
    Some (Result 1 (next_socket_id st) ERROR_NONE,
          State (<[Z.to_nat (next_socket_id st mod MAX_SOCKETS) := sock]> (sockets st))
                (socket_count st + 1) (next_socket_id st + 1)
                (errno st) (open_fds st) (nonblock_fds st ∖ {[ sock ]})
                (trace st ++ [Sys_fcntl_getfl sock; Sys_fcntl_setfl sock false])).
Proof.
  intros Hroom (Hl & Hn & Hc). unfold connect_tail.
  erewrite bind_eq by reflexivity.
  erewrite bind_eq by by apply store_socket_ok.
  unfold sys_fcntl_nonblock, log. mcbn.
  destruct (Z.ltb_spec (next_socket_id st) 0); [lia|].
  by rewrite <- !app_assoc.
Qed.


Lemma in_progress_tests os :
  in_progress os →
  (socket_ret os =? INVALID_SOCKET) = false ∧
  (0 <? inet_pton_ret os) = true ∧
  (connect_ret os =? SOCKET_ERROR) = true ∧
  (connect_errno os =? EINPROGRESS) = true.
Proof.
  intros (Hs & Hp & Hc & He). split_and!.
  - by apply Z.eqb_neq.
  - by apply Z.ltb_lt.
  - by apply Z.eqb_eq.
  - by apply Z.eqb_eq.
Qed.

(** ** Claims about [ibmoon_socket_connect] *)

(** C4. A connect with [timeout_ms > 0] whose OS connect reports
    "in progress", on a descriptor that [write_fds] has room for
    ([0 <= sock < FD_SETSIZE], without which [FD_SET] is undefined): when
    [select] returns 0 (the wait expired with no readiness) the socket is
    closed and the result is [{false, 0, Timeout}]; when [select] signals
    readiness and the pending error read by [getsockopt(SO_ERROR)] is not
    zero, the socket is closed and the result is
    [{false, 0, ConnectionRefused}].  In both cases the table is left as it
    was. *)
Theorem connect_wait_failures (host : string) (port timeout_ms : Z) os st :
  0 < timeout_ms → in_progress os → 0 <= socket_ret os < FD_SETSIZE →
  (select_ret os = 0 →
   ∃ st', ibmoon_socket_connect host port timeout_ms os st =
            Some (Result 0 0 ERROR_TIMEOUT, st') ∧
          same_table st st' ∧
          (socket_ret os ∉ open_fds st') ∧
          trace st' = trace st ++ connect_prefix host port os ++
                      [Sys_select (socket_ret os) timeout_ms 0;
                       Sys_close (socket_ret os)]) ∧
  (0 < select_ret os → so_error os ≠ 0 →
   ∃ st', ibmoon_socket_connect host port timeout_ms os st =
            Some (Result 0 0 ERROR_CONNECTION_REFUSED, st') ∧
          same_table st st' ∧
          (socket_ret os ∉ open_fds st') ∧
          trace st' = trace st ++ connect_prefix host port os ++
                      [Sys_select (socket_ret os) timeout_ms (select_ret os);
                       Sys_getsockopt_so_error (socket_ret os) (so_error os);
                       Sys_close (socket_ret os)]).
Proof.
  intros Ht (Hs & Hp & Hc & He) [Hlo Hhi].
  unfold ibmoon_socket_connect, connect_prefix, same_table.
  destruct os as [sock pton cres cerr sel soerr cl].
  cbn in Hs, Hp, Hc, He, Hlo, Hhi.
  unfold_sys. split.
  - intros Hsel. cbn in Hsel. subst sel. mrun.
    destruct cl; mcbn; eexists; (split; [reflexivity|]); mcbn.
    all: rewrite <- !app_assoc; split_and!; try done; apply not_elem_of_remove.
  - intros Hsel Hso. cbn in Hsel, Hso. mrun.
    destruct cl; mcbn; eexists; (split; [reflexivity|]); mcbn.
    all: rewrite <- !app_assoc; split_and!; try done; apply not_elem_of_remove.
Qed.

(** C5. A connect with [timeout_ms == 0] whose OS connect reports
    "in progress" issues neither [select] nor [getsockopt(SO_ERROR)]: after
    [connect] it only puts the socket back in blocking mode and registers
    it.  With room in the table the result is [{true, identifier, None}] and
    the socket sits in the slot of the new identifier; with a full table the
    socket is closed and the result is [{false, 0, Unknown}]. *)
Theorem connect_zero_timeout_in_progress (host : string) (port : Z) os st :
  in_progress os → table_ok st →
  ∃ r st' evs,
    ibmoon_socket_connect host port 0 os st = Some (r, st') ∧
    trace st' = trace st ++ connect_prefix host port os ++ evs ∧
    forallb (λ c, negb (is_wait_call c)) (connect_prefix host port os ++ evs) = true ∧
    Sys_fcntl_setfl (socket_ret os) false ∈ evs ∧
    (socket_ret os ∉ nonblock_fds st') ∧
    if decide (socket_count st < MAX_SOCKETS) then
      r = Result 1 (next_socket_id st) ERROR_NONE ∧
      evs = [Sys_fcntl_getfl (socket_ret os); Sys_fcntl_setfl (socket_ret os) false] ∧
      slot_holds st' (next_socket_id st) (socket_ret os) ∧
      socket_count st' = socket_count st + 1 ∧
      next_socket_id st' = next_socket_id st + 1 ∧
      socket_ret os ∈ open_fds st'
    else
      r = Result 0 0 ERROR_UNKNOWN ∧
      evs = [Sys_fcntl_getfl (socket_ret os); Sys_fcntl_setfl (socket_ret os) false;
             Sys_close (socket_ret os)] ∧
      same_table st st' ∧
      (socket_ret os ∉ open_fds st').
Proof.
  intros Hp Hok.
  pose proof (in_progress_tests os Hp) as (Hs & Hi & Hc & He).
  rewrite connect_reaches;
    [|unfold reaches_registration; rewrite Hs, Hi, Hc, He; reflexivity
     |unfold wait_defined, waits; by rewrite andb_false_r].
  assert (connect_wait 0 os = []) as Hw.
  { unfold connect_wait. by rewrite andb_false_r. }
  destruct (decide (socket_count st < MAX_SOCKETS)) as [Hroom|Hfull].
  - rewrite connect_tail_ok; [|done|exact Hok].
    do 3 eexists. split; [reflexivity|]. cbn [trace nonblock_fds next_socket_id
      socket_count open_fds at_registration]. rewrite Hw, app_nil_r, <- app_assoc.
    split_and!; try done.
    + apply list_elem_of_In. right. by left.
    + apply not_elem_of_remove.
    + destruct Hok as (Hl & [Hn0 Hn] & _). split.
      * by apply c_rem_in_bounds.
      * cbn [sockets at_registration]. rewrite c_rem_nonneg by done.
        apply list_lookup_insert_eq. rewrite <- c_rem_nonneg by done.
        apply in_bounds_lt; [by apply c_rem_in_bounds|done].
    + apply elem_of_union_l. by apply elem_of_singleton.
  - rewrite connect_tail_full by (cbn [socket_count at_registration]; lia).
    do 3 eexists. split; [reflexivity|]. cbn [trace nonblock_fds next_socket_id
      socket_count open_fds sockets at_registration]. rewrite Hw, app_nil_r, <- app_assoc.
    split_and!; try done.
    + apply list_elem_of_In. right. by left.
    + apply not_elem_of_remove.
    + apply not_elem_of_remove.
Qed.

(** C6. When connect arrives at registration (if through the bounded
    wait, then on a descriptor that [write_fds] has room for) and the table
    is full ([socket_count >= MAX_SOCKETS]), [store_socket] fails, the
    socket that was created for this attempt is closed again, and the result
    is [{false, 0, Unknown}]; the table is unchanged. *)
Theorem connect_table_full (host : string) (port timeout_ms : Z) os st :
  reaches_registration timeout_ms os = true →
  wait_defined timeout_ms os = true →
  MAX_SOCKETS <= socket_count st →
  ∃ st',
    ibmoon_socket_connect host port timeout_ms os st =
      Some (Result 0 0 ERROR_UNKNOWN, st') ∧
    store_socket (socket_ret os) st = Some (-1, st) ∧
    same_table st st' ∧
    last (trace st') = Some (Sys_close (socket_ret os)) ∧
    Sys_socket (socket_ret os) ∈ trace st' ∧
    (socket_ret os ∉ open_fds st') ∧
    open_fds st' = open_fds st ∖ {[ socket_ret os ]}.
Proof.
  intros Hr Hwd Hfull. rewrite connect_reaches by done.
  rewrite connect_tail_full by done.
  eexists. split; [reflexivity|].
  cbn [trace open_fds at_registration]. split_and!.
  - by apply store_socket_full.
  - done.
  - by rewrite last_app.
  - apply elem_of_app. left. apply elem_of_app. right.
    apply elem_of_app. left. by left.
  - apply not_elem_of_remove.
  - apply set_eq. intros x.
    rewrite !elem_of_difference, elem_of_union, elem_of_singleton. tauto.
Qed.


(** ** Claims about [ibmoon_socket_receive] and the result triple *)

(** C8. A receive on an identifier whose slot holds a descriptor, where
    [recv] returns 0 (no byte read and no error: the peer shut the stream
    down in order), reports [{false, 0, Closed}].  The descriptor stays
    registered and open. *)
Theorem receive_orderly_shutdown
    (socket_id buffer_len timeout_ms fd : Z) os st :
  slot_holds st socket_id fd → fd ≠ INVALID_SOCKET → io_ret os = 0 →
  ∃ st',
    ibmoon_socket_receive socket_id buffer_len timeout_ms os st =
      Some (Result 0 0 ERROR_CLOSED, st') ∧
    same_table st st' ∧
    open_fds st' = open_fds st ∧
    errno st' = errno st ∧
    last (trace st') = Some (Sys_recv fd buffer_len 0).
Proof.
  intros Hs Hfd Hret. unfold ibmoon_socket_receive.
  rewrite (bind_eq _ _ _ _ _ (find_socket_holds _ _ _ Hs)).
  destruct os as [r e]. cbn in Hret. subst r.
  destruct (Z.eqb_spec fd INVALID_SOCKET) as [|_]; [done|].
  unfold same_table. unfold_sys. mcbn.
  change (0 =? SOCKET_ERROR) with false. change (0 =? 0) with true.
  mrun; (eexists; split; [reflexivity|]); mcbn.
  all: split_and!; try done; by rewrite last_snoc.
Qed.

Lemma socket_error_of_cases (e : Z) :
  socket_error_of e = ERROR_CONNECTION_REFUSED ∨
  socket_error_of e = ERROR_TIMEOUT ∨
  socket_error_of e = ERROR_CLOSED ∨
  socket_error_of e = ERROR_UNKNOWN.
Proof. unfold socket_error_of. repeat case_match; auto. Qed.

Lemma result_shape_failure (e : Z) :
  result_shape (Result 0 0 (socket_error_of e)).
Proof.
  right. split; [done|]. cbn.
  destruct (socket_error_of_cases e) as [-> | [-> | [-> | ->]]]; auto 6.
Qed.

Lemma connect_tail_shape os (sock : Z) st r st' :
  connect_tail os sock st = Some (r, st') → result_shape r.
Proof.
  unfold connect_tail. intros Hr.
  apply bind_Some in Hr as ([] & s1 & _ & Hr).
  apply bind_Some in Hr as (id & s2 & _ & Hr).
  destruct (id <? 0).
  - apply bind_Some in Hr as ([] & s3 & _ & [= <- <-]).
    right. cbn. auto 6.
  - injection Hr as <- <-. by left.
Qed.

Lemma connect_shape (host : string) (port timeout_ms : Z) os st r st' :
  ibmoon_socket_connect host port timeout_ms os st = Some (r, st') →
  result_shape r.
Proof.
  destruct (reaches_registration timeout_ms os) eqn:Hreach.
  - destruct (wait_defined timeout_ms os) eqn:Hwd.
    + rewrite connect_reaches by done. apply connect_tail_shape.
    + by rewrite connect_wait_undefined.
  - revert Hreach. unfold reaches_registration, ibmoon_socket_connect.
    destruct os as [sock pton cres cerr sel soerr cl].
    unfold_sys. mrun.
    all: intros Hreach; try discriminate Hreach.
    all: destruct cl; mcbn; intros Hr; try discriminate Hr.
    all: injection Hr as <- <-.
    all: first [apply result_shape_failure | right; cbn; auto 6].
Qed.

Lemma send_shape (socket_id length : Z) os st r st' :
  ibmoon_socket_send socket_id length os st = Some (r, st') →
  result_shape r.
Proof.
  unfold ibmoon_socket_send. intros Hr.
  apply bind_Some in Hr as (sock & s1 & _ & Hr).
  destruct (sock =? INVALID_SOCKET).
  { injection Hr as <- <-. right. cbn. auto 6. }
  apply bind_Some in Hr as (n & s2 & _ & Hr).
  destruct (n =? SOCKET_ERROR).
  - apply bind_Some in Hr as (err & s3 & [= <- <-] & [= <- <-]).
    apply result_shape_failure.
  - injection Hr as <- <-. by left.
Qed.

Lemma receive_shape (socket_id buffer_len timeout_ms : Z) os st r st' :
  ibmoon_socket_receive socket_id buffer_len timeout_ms os st = Some (r, st') →
  result_shape r.
Proof.
  unfold ibmoon_socket_receive. intros Hr.
  apply bind_Some in Hr as (sock & s1 & _ & Hr).
  destruct (sock =? INVALID_SOCKET).
  { injection Hr as <- <-. right. cbn. auto 6. }
  apply bind_Some in Hr as ([] & s2 & _ & Hr).
  apply bind_Some in Hr as (n & s3 & _ & Hr).
  destruct (n =? SOCKET_ERROR).
  - apply bind_Some in Hr as (err & s4 & [= <- <-] & [= <- <-]).
    apply result_shape_failure.
  - destruct (n =? 0); injection Hr as <- <-; [right; cbn; auto 6 | by left].
Qed.

Lemma close_shape (socket_id : Z) close_err st r st' :
  ibmoon_socket_close socket_id close_err st = Some (r, st') →
  result_shape r.
Proof.
  unfold ibmoon_socket_close. intros Hr.
  apply bind_Some in Hr as (sock & s1 & _ & Hr).
  destruct (sock =? INVALID_SOCKET).
  { injection Hr as <- <-. right. cbn. auto 6. }
  apply bind_Some in Hr as ([] & s2 & _ & [= <- <-]). by left.
Qed.


(** Every operation returns when its array accesses are in range. *)

Lemma connect_total (host : string) (port timeout_ms : Z) os st :
  table_ok st → wait_defined timeout_ms os = true →
  ∃ r st', ibmoon_socket_connect host port timeout_ms os st = Some (r, st').
Proof.
  intros Hok Hwd.
  destruct (reaches_registration timeout_ms os) eqn:Hreach.
  - rewrite connect_reaches by done.
    destruct (Z.lt_ge_cases (socket_count st) MAX_SOCKETS) as [Hroom|Hfull].
    + rewrite connect_tail_ok; [eauto|done|exact Hok].
    + rewrite connect_tail_full by done. eauto.
  - destruct (connect_not_reaches host port timeout_ms os st Hreach Hwd)
      as (r & st' & Hc & _). eauto.
Qed.

Lemma send_total (socket_id length : Z) os st :
  table_ok st → 0 <= socket_id →
  ∃ r st', ibmoon_socket_send socket_id length os st = Some (r, st').
Proof.
  intros (Hl & _) Hid.
  destruct (find_socket_total socket_id st Hid Hl) as [fd Hfd].
  unfold ibmoon_socket_send. rewrite (bind_eq _ _ _ _ _ Hfd).
  destruct os as [r e]. unfold_sys. mrun; eauto.
Qed.

Lemma receive_total (socket_id buffer_len timeout_ms : Z) os st :
  table_ok st → 0 <= socket_id →
  ∃ r st',
    ibmoon_socket_receive socket_id buffer_len timeout_ms os st = Some (r, st').
Proof.
  intros (Hl & _) Hid.
  destruct (find_socket_total socket_id st Hid Hl) as [fd Hfd].
  unfold ibmoon_socket_receive. rewrite (bind_eq _ _ _ _ _ Hfd).
  destruct os as [r e]. unfold_sys. mrun; eauto.
Qed.

Lemma close_total (socket_id : Z) close_err st :
  table_ok st → 0 <= socket_id →
  ∃ r st', ibmoon_socket_close socket_id close_err st = Some (r, st').
Proof.
  intros (Hl & _ & Hc) Hid.
  destruct (find_socket_total socket_id st Hid Hl) as [fd Hfd].
  apply find_socket_Some in Hfd as [_ Hfd].
  destruct (decide (fd = INVALID_SOCKET)) as [->|Hne].
  - rewrite close_invalid by done. eauto.
  - erewrite close_occupied by done. eauto.
Qed.

(** C9. Whatever the call and its input, a returned triple is either
    success with [ERROR_NONE] or failure with one of the five other error
    kinds; a call whose array accesses are in range (the identifier from 0
    upwards, the descriptor of a bounded wait below [FD_SETSIZE]) does
    return; and the mapper
    of OS errors, [get_socket_error], yields one of [ConnectionRefused],
    [Timeout], [Closed], [Unknown], never [ERROR_NONE]. *)
Theorem result_triple_shape (c : call) (st : state) :
  (∀ r st', step c st = Some (r, st') → result_shape r) ∧
  (call_defined st c → ∃ r st', step c st = Some (r, st') ∧ result_shape r) ∧
  (∃ e, get_socket_error st = Some (e, st) ∧ e ≠ ERROR_NONE ∧
        (e = ERROR_CONNECTION_REFUSED ∨ e = ERROR_TIMEOUT ∨
         e = ERROR_CLOSED ∨ e = ERROR_UNKNOWN)).
Proof.
  assert (∀ r st', step c st = Some (r, st') → result_shape r) as Hshape.
  { intros r st'. destruct c; cbn [step].
    - apply connect_shape.
    - apply send_shape.
    - apply receive_shape.
    - apply close_shape. }
  split_and!.
  - exact Hshape.
  - intros [Hok Hid].
    assert (∃ r st', step c st = Some (r, st')) as (r & st' & Hr).
    { destruct c; cbn [step].
      - by apply connect_total.
      - by apply send_total.
      - by apply receive_total.
      - by apply close_total. }
    exists r, st'. split; [done|]. by eapply Hshape.
  - exists (socket_error_of (errno st)). split; [reflexivity|].
    pose proof (socket_error_of_cases (errno st)) as Hcases.
    split; [|exact Hcases].
    unfold_consts. intros Heq. rewrite Heq in Hcases.
    destruct Hcases as [? | [? | [? | ?]]]; discriminate.
Qed.

(** ** The slot of an identifier *)

(** C3. [store_socket] and [find_socket] both take the cell
    [identifier % MAX_SOCKETS], which for an identifier (a value from 0
    upwards, as [next_socket_id] mints them) is [identifier mod 256]; two
    identifiers that differ by a multiple of 256 therefore have the same
    cell, and looking up the one finds the descriptor stored for the
    other. *)
Theorem identifier_slot_mapping (a b : Z) :
  0 <= a → 0 <= b → (∃ k, b = a + MAX_SOCKETS * k) →
  (∀ st, find_socket a st = read_slot (a mod MAX_SOCKETS) st) ∧
  (∀ st sock,
     next_socket_id st = a → a < INT_MAX →
     socket_count st < MAX_SOCKETS →
     length (sockets st) = Z.to_nat MAX_SOCKETS →
     ∃ st', store_socket sock st = Some (a, st') ∧
            sockets st' = <[Z.to_nat (a mod MAX_SOCKETS) := sock]> (sockets st) ∧
            find_socket a st' = Some (sock, st') ∧
            find_socket b st' = Some (sock, st')) ∧
  a mod MAX_SOCKETS = b mod MAX_SOCKETS ∧
  (∀ st, find_socket a st = find_socket b st).
Proof.
  intros Ha Hb [k Hk].
  pose proof (c_rem_congr a b k Ha Hb Hk) as Hcongr.
  assert (∀ st, find_socket a st = find_socket b st) as Hfind.
  { intros st. unfold find_socket. by rewrite Hcongr. }
  split_and!.
  - intros st. unfold find_socket. by rewrite c_rem_nonneg.
  - intros st sock Hnext Hmax Hroom Hlen.
    rewrite store_socket_ok by (rewrite ?Hnext; done || lia).
    rewrite Hnext. eexists. split; [reflexivity|].
    cbn [sockets].
    assert (find_socket a
              (State (<[Z.to_nat (a mod MAX_SOCKETS) := sock]> (sockets st))
                     (socket_count st + 1) (a + 1) (errno st) (open_fds st)
                     (nonblock_fds st) (trace st)) = Some (sock, State
                     (<[Z.to_nat (a mod MAX_SOCKETS) := sock]> (sockets st))
                     (socket_count st + 1) (a + 1) (errno st) (open_fds st)
                     (nonblock_fds st) (trace st))) as Hfa.
    { apply find_socket_holds. split; [by apply c_rem_in_bounds|].
      cbn [sockets]. rewrite c_rem_nonneg by done.
      apply list_lookup_insert_eq. rewrite <- c_rem_nonneg by done.
      apply in_bounds_lt; [by apply c_rem_in_bounds|done]. }
    split_and!; [done|exact Hfa|]. by rewrite <- Hfind.
  - by rewrite <- !c_rem_nonneg.
  - exact Hfind.
Qed.


(** ** Counting the occupied cells *)

Lemma filter_insert_length (P : Z → Prop) `{!∀ x, Decision (P x)}
    (l : list Z) (i : nat) (old new : Z) :
  l !! i = Some old →
  (length (filter P (<[i := new]> l)) + (if decide (P old) then 1 else 0) =
   length (filter P l) + (if decide (P new) then 1 else 0))%nat.
Proof.
  revert i. induction l as [|x l IH]; intros [|i] Hi; simplify_eq/=.
  - rewrite !filter_cons. repeat case_decide; simpl; lia.
  - rewrite !filter_cons. specialize (IH i Hi).
    repeat case_decide; simpl in *; lia.
Qed.

Lemma occupied_slots_overwrite (i : nat) (old new : Z) st st' :
  sockets st !! i = Some old → sockets st' = <[i := new]> (sockets st) →
  old ≠ INVALID_SOCKET → new ≠ INVALID_SOCKET →
  occupied_slots st' = occupied_slots st.
Proof.
  intros Hold Heq Ho Hn. unfold occupied_slots. rewrite Heq.
  pose proof (filter_insert_length (λ v, v ≠ INVALID_SOCKET) _ i old new Hold) as Hlen.
  rewrite !decide_True in Hlen by done. lia.
Qed.

Lemma occupied_slots_release (i : nat) (old : Z) st st' :
  sockets st !! i = Some old → sockets st' = <[i := INVALID_SOCKET]> (sockets st) →
  old ≠ INVALID_SOCKET →
  occupied_slots st' = occupied_slots st - 1.
Proof.
  intros Hold Heq Ho. unfold occupied_slots. rewrite Heq.
  pose proof (filter_insert_length (λ v, v ≠ INVALID_SOCKET) _ i old
                INVALID_SOCKET Hold) as Hlen.
  rewrite decide_True in Hlen by done.
  rewrite decide_False in Hlen by (intros Hne; by apply Hne). lia.
Qed.

(** C10. When the identifier that [store_socket] mints falls on a cell
    that already holds a live descriptor [old], the cell is overwritten with
    the new descriptor; no [close] is issued, so [old] stays open, and if
    that cell was its only place in the table nothing refers to it any more.
    [socket_count] is incremented all the same although the number of
    occupied cells has not changed: if the two agreed before, they differ
    afterwards. *)
Theorem store_socket_overwrites_live_slot (sock old : Z) st :
  table_ok st → socket_count st < MAX_SOCKETS →
  slot_holds st (next_socket_id st) old →
  old ≠ INVALID_SOCKET → old ∈ open_fds st →
  sock ≠ INVALID_SOCKET →
  ∃ st',
    store_socket sock st = Some (next_socket_id st, st') ∧
    slot_holds st' (next_socket_id st) sock ∧
    trace st' = trace st ∧
    old ∈ open_fds st' ∧
    (sock ≠ old →
     (∀ i, sockets st !! i = Some old →
           i = Z.to_nat (c_rem (next_socket_id st) MAX_SOCKETS)) →
     old ∉ sockets st') ∧
    socket_count st' = socket_count st + 1 ∧
    occupied_slots st' = occupied_slots st ∧
    (socket_count st = occupied_slots st →
     socket_count st' ≠ occupied_slots st').
Proof.
  intros (Hl & Hn & Hc) Hroom [Hb Hold] Hlive Hopen Hsock.
  rewrite store_socket_ok by done.
  eexists. split; [reflexivity|].
  rewrite c_rem_nonneg in Hold by lia.
  assert (occupied_slots
            (State (<[Z.to_nat (next_socket_id st mod MAX_SOCKETS) := sock]> (sockets st))
                   (socket_count st + 1) (next_socket_id st + 1) (errno st)
                   (open_fds st) (nonblock_fds st) (trace st))
          = occupied_slots st) as Hocc.
  { by eapply occupied_slots_overwrite. }
  split_and!; try done.
  - split; [done|]. cbn [sockets]. rewrite c_rem_nonneg by lia.
    apply list_lookup_insert_eq. by eapply lookup_lt_Some.
  - intros Hne Honly [i Hi]%list_elem_of_lookup. cbn [sockets] in Hi.
    rewrite c_rem_nonneg in Honly by lia.
    destruct (decide (i = Z.to_nat (next_socket_id st mod MAX_SOCKETS))) as [->|Hi'].
    + rewrite list_lookup_insert_eq in Hi by by eapply lookup_lt_Some.
      by injection Hi.
    + rewrite list_lookup_insert_ne in Hi by done. by apply Hi', Honly.
  - rewrite Hocc. cbn [socket_count]. lia.
Qed.


(** ** What one call does to the table *)

Lemma same_table_refl st : same_table st st.
Proof. by split_and!. Qed.

Lemma send_same_table (socket_id length : Z) os st r st' :
  ibmoon_socket_send socket_id length os st = Some (r, st') → same_table st st'.
Proof.
  unfold ibmoon_socket_send. intros Hr.
  apply bind_Some in Hr as (sock & s1 & [-> _]%find_socket_Some & Hr).
  destruct (sock =? INVALID_SOCKET).
  { injection Hr as <- <-. apply same_table_refl. }
  revert Hr. destruct os as [n e]. unfold_sys. mrun.
  all: by intros [= <- <-].
Qed.

Lemma receive_same_table (socket_id buffer_len timeout_ms : Z) os st r st' :
  ibmoon_socket_receive socket_id buffer_len timeout_ms os st = Some (r, st') →
  same_table st st'.
Proof.
  unfold ibmoon_socket_receive. intros Hr.
  apply bind_Some in Hr as (sock & s1 & [-> _]%find_socket_Some & Hr).
  destruct (sock =? INVALID_SOCKET).
  { injection Hr as <- <-. apply same_table_refl. }
  revert Hr. destruct os as [n e]. unfold_sys. mrun.
  all: by intros [= <- <-].
Qed.

Lemma remove_socket_inv (socket_id fd : Z) close_err st st' :
  remove_socket socket_id close_err st = Some (tt, st') →
  slot_holds st socket_id fd → fd ≠ INVALID_SOCKET →
  st' = released socket_id fd close_err st.
Proof.
  intros Hr Hs Hfd.
  destruct (Z.lt_ge_cases INT_MIN (socket_count st)) as [Hc|Hc].
  - rewrite (remove_socket_occupied _ fd) in Hr by done. by injection Hr.
  - exfalso. destruct Hs as [Hb Hl]. revert Hr. unfold remove_socket.
    rewrite (bind_eq _ _ st fd st) by by apply read_slot_Some.
    destruct (Z.eqb_spec fd INVALID_SOCKET) as [|_]; [done|]. cbn [negb].
    rewrite (bind_eq _ _ st fd st) by by apply read_slot_Some.
    rewrite (bind_eq _ _ _ _ _ (sys_close_eq fd close_err st)).
    erewrite bind_eq by (apply write_slot_lt; [done|by eapply lookup_lt_Some]).
    unfold int_decr. unfold_monad. cbn.
    by destruct (Z.ltb_spec INT_MIN (socket_count st)); [lia|].
Qed.

Lemma close_cases (socket_id : Z) close_err st r st' :
  ibmoon_socket_close socket_id close_err st = Some (r, st') →
  (r = Result 0 0 ERROR_INVALID_SOCKET ∧ st' = st ∧
   slot_holds st socket_id INVALID_SOCKET) ∨
  (∃ fd, slot_holds st socket_id fd ∧ fd ≠ INVALID_SOCKET ∧
         r = Result 1 0 ERROR_NONE ∧
         st' = released socket_id fd close_err st).
Proof.
  unfold ibmoon_socket_close. intros Hr.
  apply bind_Some in Hr as (fd & s1 & [-> Hs]%find_socket_Some & Hr).
  destruct (Z.eqb_spec fd INVALID_SOCKET) as [->|Hfd].
  - injection Hr as <- <-. by left.
  - apply bind_Some in Hr as ([] & s2 & Hrem & [= <- <-]).
    right. exists fd. split_and!; try done. by eapply remove_socket_inv.
Qed.

Lemma connect_tail_cases os (sock : Z) st r st' :
  connect_tail os sock st = Some (r, st') → 0 <= next_socket_id st →
  (success r = 0 ∧ same_table st st') ∨
  (r = Result 1 (next_socket_id st) ERROR_NONE ∧
   in_bounds (c_rem (next_socket_id st) MAX_SOCKETS) = true ∧
   sockets st' =
     <[Z.to_nat (c_rem (next_socket_id st) MAX_SOCKETS) := sock]> (sockets st) ∧
   socket_count st' = socket_count st + 1 ∧
   next_socket_id st' = next_socket_id st + 1).
Proof.
  unfold connect_tail. intros Hr Hn.
  apply bind_Some in Hr as ([] & s1 & [= <-] & Hr).
  apply bind_Some in Hr as (id & s2 & Hst & Hr).
  apply store_socket_inv in Hst as [(_ & -> & ->)|(_ & -> & Hb & ->)].
  - cbn in Hr. destruct (close_errno os); injection Hr as <- <-; by left.
  - cbn [next_socket_id set_nonblock_fds set_trace] in Hr.
    destruct (Z.ltb_spec (next_socket_id st) 0); [lia|].
    injection Hr as <- <-. right. by split_and!.
Qed.

Lemma connect_cases (host : string) (port timeout_ms : Z) os st r st' :
  ibmoon_socket_connect host port timeout_ms os st = Some (r, st') →
  0 <= next_socket_id st →
  (success r = 0 ∧ same_table st st') ∨
  (r = Result 1 (next_socket_id st) ERROR_NONE ∧
   in_bounds (c_rem (next_socket_id st) MAX_SOCKETS) = true ∧
   sockets st' =
     <[Z.to_nat (c_rem (next_socket_id st) MAX_SOCKETS) := socket_ret os]>
       (sockets st) ∧
   socket_count st' = socket_count st + 1 ∧
   next_socket_id st' = next_socket_id st + 1).
Proof.
  intros Hr Hn.
  pose proof (connect_Some_wait_defined _ _ _ _ _ _ _ Hr) as Hwd.
  destruct (reaches_registration timeout_ms os) eqn:Hreach.
  - rewrite connect_reaches in Hr by done.
    by apply connect_tail_cases in Hr.
  - destruct (connect_not_reaches host port timeout_ms os st Hreach Hwd)
      as (r' & s' & Hc & Hsame & Hfail & _).
    rewrite Hr in Hc. injection Hc as <- <-. by left.
Qed.

(** ** A cell that holds the sentinel keeps it until a connect lands there *)

Lemma slot_holds_same_table (socket_id v : Z) st st' :
  same_table st st' → slot_holds st socket_id v → slot_holds st' socket_id v.
Proof. intros (Hs & _) [Hb Hv]. split; [done|]. by rewrite Hs. Qed.

Lemma step_keeps_sentinel (socket_id : Z) (c : call) st r st' :
  step c st = Some (r, st') →
  0 <= next_socket_id st →
  slot_holds st socket_id INVALID_SOCKET →
  reoccupies socket_id c r = false →
  slot_holds st' socket_id INVALID_SOCKET ∧ 0 <= next_socket_id st'.
Proof.
  intros Hstep Hn Hs Hre. destruct c as [host port t os|id len os|id len t os|id e];
    cbn [step reoccupies] in *.
  - destruct (connect_cases _ _ _ _ _ _ _ Hstep Hn)
      as [[_ Hsame]|(-> & Hb & Hsock & _ & Hnext)].
    + split; [by eapply slot_holds_same_table|].
      destruct Hsame as (_ & _ & ->). done.
    + split; [|lia]. cbn in Hre. destruct Hs as [Hbi Hv]. split; [done|].
      rewrite Hsock. rewrite list_lookup_insert_ne; [done|].
      apply Z.eqb_neq in Hre. intros Heq. apply Hre.
      unfold in_bounds in Hb, Hbi.
      apply andb_true_iff in Hb as [?%Z.leb_le _].
      apply andb_true_iff in Hbi as [?%Z.leb_le _]. lia.
  - pose proof (send_same_table _ _ _ _ _ _ Hstep) as Hsame.
    split; [by eapply slot_holds_same_table|].
    destruct Hsame as (_ & _ & ->). done.
  - pose proof (receive_same_table _ _ _ _ _ _ _ Hstep) as Hsame.
    split; [by eapply slot_holds_same_table|].
    destruct Hsame as (_ & _ & ->). done.
  - apply close_cases in Hstep as [(_ & -> & _)|(fd & [Hb Hfd] & Hne & _ & ->)];
      first done.
    split; [|done]. destruct Hs as [Hbi Hv]. split; [done|]. cbn [sockets released].
    destruct (decide (Z.to_nat (c_rem id MAX_SOCKETS) =
                      Z.to_nat (c_rem socket_id MAX_SOCKETS))) as [Heq|Hneq].
    + rewrite Heq. apply list_lookup_insert_eq. by eapply lookup_lt_Some.
    + by rewrite list_lookup_insert_ne.
Qed.

Lemma run_cons_Some (c : call) (cs : list call) st rs st' :
  run (c :: cs) st = Some (rs, st') ↔
  ∃ r st1 rs', step c st = Some (r, st1) ∧ run cs st1 = Some (rs', st') ∧
               rs = r :: rs'.
Proof.
  cbn [run]. split.
  - intros (r & st1 & Hstep & Hrest)%bind_Some.
    apply bind_Some in Hrest as (rs' & st2 & Hrun & [= <- <-]).
    by exists r, st1, rs'.
  - intros (r & st1 & rs' & Hstep & Hrun & ->).
    rewrite (bind_eq _ _ _ _ _ Hstep). by rewrite (bind_eq _ _ _ _ _ Hrun).
Qed.

Lemma run_keeps_sentinel (socket_id : Z) (cs : list call) :
  ∀ st rs st',
    run cs st = Some (rs, st') →
    0 <= next_socket_id st →
    slot_holds st socket_id INVALID_SOCKET →
    no_reoccupation socket_id cs rs →
    slot_holds st' socket_id INVALID_SOCKET.
Proof.
  induction cs as [|c cs IH]; intros st rs st' Hrun Hn Hs Hno.
  - by injection Hrun as <- <-.
  - apply run_cons_Some in Hrun as (r & st1 & rs' & Hstep & Hrun & ->).
    destruct (step_keeps_sentinel socket_id c st r st1 Hstep Hn Hs) as [Hs1 Hn1].
    { apply Hno. cbn [zip zip_with]. by left. }
    apply (IH st1 rs' st' Hrun Hn1 Hs1).
    intros c' r' Hin. apply Hno. cbn [zip zip_with]. by right.
Qed.


(** ** Claims about closing and about invalid handles *)

(** C7. Closing an identifier whose cell holds a descriptor releases the
    cell: [close] is called on the descriptor, the cell is reset to
    [INVALID_SOCKET], [socket_count] goes down by one, and the result is
    [{true, 0, None}].  Closing the same identifier again, at once or after
    any calls among which no connect lands in that cell, gives
    [{false, 0, InvalidSocket}]. *)
Theorem close_releases_then_invalid (socket_id fd : Z) (e1 e2 : option Z) st :
  slot_holds st socket_id fd → fd ≠ INVALID_SOCKET →
  INT_MIN < socket_count st → 0 <= next_socket_id st →
  ∃ st1,
    ibmoon_socket_close socket_id e1 st = Some (Result 1 0 ERROR_NONE, st1) ∧
    trace st1 = trace st ++ [Sys_close fd] ∧
    (fd ∉ open_fds st1) ∧
    slot_holds st1 socket_id INVALID_SOCKET ∧
    socket_count st1 = socket_count st - 1 ∧
    occupied_slots st1 = occupied_slots st - 1 ∧
    ibmoon_socket_close socket_id e2 st1 =
      Some (Result 0 0 ERROR_INVALID_SOCKET, st1) ∧
    (∀ cs rs st2,
       run cs st1 = Some (rs, st2) → no_reoccupation socket_id cs rs →
       ibmoon_socket_close socket_id e2 st2 =
         Some (Result 0 0 ERROR_INVALID_SOCKET, st2)).
Proof.
  intros Hs Hfd Hc Hn.
  exists (released socket_id fd e1 st).
  pose proof (released_slot socket_id fd e1 st Hs) as Hs1.
  split_and!.
  - by apply close_occupied.
  - done.
  - apply not_elem_of_remove.
  - exact Hs1.
  - done.
  - destruct Hs as [_ Hl]. by eapply occupied_slots_release.
  - by apply close_invalid.
  - intros cs rs st2 Hrun Hno. apply close_invalid.
    by eapply run_keeps_sentinel.
Qed.

(** C1, as the code has it.  An identifier whose cell holds
    [INVALID_SOCKET], in particular one that has just been closed with
    success, is refused by send, receive and close with
    [{false, 0, InvalidSocket}], and stays refused over any further calls
    among which no connect lands in its cell.  The refusal changes
    nothing. *)
Theorem invalid_handle_refused (socket_id : Z) (cs : list call) rs st st' :
  (slot_holds st socket_id INVALID_SOCKET ∨
   ∃ st0 e, ibmoon_socket_close socket_id e st0 =
              Some (Result 1 0 ERROR_NONE, st)) →
  0 <= next_socket_id st →
  run cs st = Some (rs, st') → no_reoccupation socket_id cs rs →
  (∀ length os,
     ibmoon_socket_send socket_id length os st' =
       Some (Result 0 0 ERROR_INVALID_SOCKET, st')) ∧
  (∀ buffer_len timeout_ms os,
     ibmoon_socket_receive socket_id buffer_len timeout_ms os st' =
       Some (Result 0 0 ERROR_INVALID_SOCKET, st')) ∧
  (∀ e,
     ibmoon_socket_close socket_id e st' =
       Some (Result 0 0 ERROR_INVALID_SOCKET, st')).
Proof.
  intros Hclosed Hn Hrun Hno.
  assert (slot_holds st socket_id INVALID_SOCKET) as Hs.
  { destruct Hclosed as [Hs|(st0 & e & Hclose)]; [done|].
    apply close_cases in Hclose as [([=] & _)|(fd & Hfd & _ & _ & ->)].
    by apply released_slot. }
  pose proof (run_keeps_sentinel socket_id cs st rs st' Hrun Hn Hs Hno) as Hs'.
  split_and!; intros.
  - by apply send_invalid.
  - by apply receive_invalid.
  - by apply close_invalid.
Qed.


(** ** The invariant of the table, from a table filled with the sentinel *)

Lemma send_open_fds (socket_id length : Z) os st r st' :
  ibmoon_socket_send socket_id length os st = Some (r, st') →
  open_fds st' = open_fds st.
Proof.
  unfold ibmoon_socket_send. intros Hr.
  apply bind_Some in Hr as (sock & s1 & [-> _]%find_socket_Some & Hr).
  destruct (sock =? INVALID_SOCKET); [by injection Hr as <- <-|].
  revert Hr. destruct os as [n e]. unfold_sys. mrun.
  all: by intros [= <- <-].
Qed.

Lemma receive_open_fds (socket_id buffer_len timeout_ms : Z) os st r st' :
  ibmoon_socket_receive socket_id buffer_len timeout_ms os st = Some (r, st') →
  open_fds st' = open_fds st.
Proof.
  unfold ibmoon_socket_receive. intros Hr.
  apply bind_Some in Hr as (sock & s1 & [-> _]%find_socket_Some & Hr).
  destruct (sock =? INVALID_SOCKET); [by injection Hr as <- <-|].
  revert Hr. destruct os as [n e]. unfold_sys. mrun.
  all: by intros [= <- <-].
Qed.

Lemma connect_tail_open_fds os (sock : Z) st r st' :
  connect_tail os sock st = Some (r, st') →
  (success r = 0 ∧ open_fds st' = open_fds st ∖ {[ sock ]}) ∨
  (success r = 1 ∧ open_fds st' = open_fds st).
Proof.
  unfold connect_tail. intros Hr.
  apply bind_Some in Hr as ([] & s1 & [= <-] & Hr).
  apply bind_Some in Hr as (id & s2 & Hst & Hr).
  assert (open_fds s2 = open_fds st) as Hopen.
  { by apply store_socket_inv in Hst as [(_ & _ & ->)|(_ & _ & _ & ->)]. }
  destruct (id <? 0).
  - rewrite (bind_eq _ _ _ _ _ (sys_close_eq sock (close_errno os) s2)) in Hr.
    injection Hr as <- <-. left. cbn [open_fds success]. by rewrite Hopen.
  - injection Hr as <- <-. by right.
Qed.

Lemma connect_open_fds (host : string) (port timeout_ms : Z) os st r st' :
  ibmoon_socket_connect host port timeout_ms os st = Some (r, st') →
  (∀ fd, fd ∈ open_fds st → fd ≠ socket_ret os → fd ∈ open_fds st') ∧
  (success r = 1 →
   socket_ret os ∈ open_fds st' ∧ socket_ret os ≠ INVALID_SOCKET).
Proof.
  intros Hr.
  pose proof (connect_Some_wait_defined _ _ _ _ _ _ _ Hr) as Hwd.
  destruct (reaches_registration timeout_ms os) eqn:Hreach.
  - rewrite connect_reaches in Hr by done.
    apply connect_tail_open_fds in Hr as [[Hfail ->]|[_ ->]];
      cbn [open_fds at_registration].
    + split; [|by rewrite Hfail]. intros fd Hfd Hne. by apply elem_of_add_remove.
    + split.
      * intros fd Hfd _. by apply elem_of_union_r.
      * intros _. split; [apply elem_of_union_l; by apply elem_of_singleton|].
        unfold reaches_registration in Hreach.
        apply andb_true_iff in Hreach as [[Hs _]%andb_true_iff _].
        by apply negb_true_iff, Z.eqb_neq in Hs.
  - destruct (connect_not_reaches host port timeout_ms os st Hreach Hwd)
      as (r' & s' & Hc & _ & Hfail & _ & _ & Hkeep).
    rewrite Hr in Hc. injection Hc as <- <-.
    split; [exact Hkeep|]. by rewrite Hfail.
Qed.

Lemma table_inv_sentinel st :
  sockets st = replicate (Z.to_nat MAX_SOCKETS) INVALID_SOCKET → table_inv st.
Proof.
  intros Hs. unfold table_inv. rewrite Hs. split_and!.
  - apply length_replicate.
  - by intros i fd [-> _]%lookup_replicate.
  - by intros i j fd [-> _]%lookup_replicate.
Qed.

Lemma table_inv_insert (i : nat) (fd : Z) (fds : gset Z) st st' :
  table_inv st →
  sockets st' = <[i := fd]> (sockets st) →
  (fd ≠ INVALID_SOCKET → fd ∈ fds ∧ ∀ j, sockets st !! j ≠ Some fd) →
  (∀ j x, j ≠ i → sockets st !! j = Some x → x ≠ INVALID_SOCKET → x ∈ fds) →
  length (sockets st') = Z.to_nat MAX_SOCKETS ∧
  (∀ j x, sockets st' !! j = Some x → x ≠ INVALID_SOCKET → x ∈ fds) ∧
  (∀ j k x, sockets st' !! j = Some x → sockets st' !! k = Some x →
            x ≠ INVALID_SOCKET → j = k).
Proof.
  intros (Hlen & Hlive & Huniq) -> Hnew Hold. split_and!.
  - by rewrite length_insert.
  - intros j x [(<- & <- & _)|[Hne Hj]]%list_lookup_insert_Some Hx.
    + by apply Hnew.
    + by eapply Hold.
  - intros j k x [(<- & <- & _)|[Hj Hjx]]%list_lookup_insert_Some
                 [(Hk & Hkx & _)|[Hk Hkx]]%list_lookup_insert_Some Hx.
    + done.
    + exfalso. by eapply (proj2 (Hnew Hx)).
    + exfalso. subst x. by eapply (proj2 (Hnew Hx)).
    + by eapply Huniq.
Qed.

(** From a table filled with [INVALID_SOCKET], which is what the code takes
    an empty table to be, every call keeps the cells in order, as long as
    the system hands out descriptors that are not open already. *)
Lemma table_inv_step (c : call) st r st' :
  table_inv st → fresh_descriptor st c → 0 <= next_socket_id st →
  step c st = Some (r, st') →
  table_inv st'.
Proof.
  intros Hinv Hfresh Hn Hstep. pose proof Hinv as (Hlen & Hlive & Huniq).
  destruct c as [host port t os|id len os|id len t os|id e];
    cbn [step fresh_descriptor] in *.
  - pose proof (connect_open_fds _ _ _ _ _ _ _ Hstep) as [Hkeep Hnew].
    destruct (connect_cases _ _ _ _ _ _ _ Hstep Hn)
      as [[_ (Hs & _)]|(-> & _ & Hs & _)].
    + unfold table_inv. rewrite Hs. split_and!; [done| |done].
      intros i fd Hi Hfd. apply Hkeep; [by eapply Hlive|].
      intros ->. apply Hfresh. by eapply Hlive.
    + destruct (Hnew eq_refl) as [Hopen Hvalid].
      eapply table_inv_insert; [done|exact Hs| |].
      * intros _. split; [done|]. intros j Hj. apply Hfresh. by eapply Hlive.
      * intros j x _ Hj Hx. apply Hkeep; [by eapply Hlive|].
        intros ->. apply Hfresh. by eapply Hlive.
  - pose proof (send_same_table _ _ _ _ _ _ Hstep) as (Hs & _).
    pose proof (send_open_fds _ _ _ _ _ _ Hstep) as Ho.
    unfold table_inv. by rewrite Hs, Ho.
  - pose proof (receive_same_table _ _ _ _ _ _ _ Hstep) as (Hs & _).
    pose proof (receive_open_fds _ _ _ _ _ _ _ Hstep) as Ho.
    unfold table_inv. by rewrite Hs, Ho.
  - apply close_cases in Hstep as [(_ & -> & _)|(fd & [Hb Hfd] & Hne & _ & ->)];
      first done.
    eapply table_inv_insert; [done|reflexivity|done|].
    intros j x Hj Hjx Hx. cbn [open_fds released].
    apply elem_of_difference. split; [by eapply Hlive|].
    intros ->%elem_of_singleton. apply Hj. by eapply Huniq.
Qed.

(** ** The table when the program starts *)

Lemma init_state_slot (socket_id : Z) :
  0 <= socket_id → slot_holds init_state socket_id 0.
Proof.
  intros Hid. pose proof (c_rem_in_bounds _ Hid) as Hb. split; [done|].
  apply lookup_replicate_2.
  unfold in_bounds in Hb. apply andb_true_iff in Hb as [?%Z.leb_le ?%Z.ltb_lt].
  unfold_consts. lia.
Qed.

(** C2, at the start of the program.  [sockets] is a static array without
    initialiser, so before any allocation every cell holds 0, which is not
    [INVALID_SOCKET]: [socket_count] is 0 while all 256 cells count as
    occupied, all by the same descriptor, and the invariant of the table does
    not hold.  A first call [ibmoon_socket_close(5)] therefore finds a
    descriptor, closes descriptor 0, takes [socket_count] to -1 and reports
    success; a first [ibmoon_socket_send(5, ..)] writes to descriptor 0. *)
Theorem initial_table_not_sentinel :
  (∀ socket_id, 0 <= socket_id → slot_holds init_state socket_id 0) ∧
  0 ≠ INVALID_SOCKET ∧
  socket_count init_state = 0 ∧
  occupied_slots init_state = 256 ∧
  trace init_state = [] ∧
  ¬ table_inv init_state ∧
  (∃ st', ibmoon_socket_close 5 None init_state =
            Some (Result 1 0 ERROR_NONE, st') ∧
          trace st' = [Sys_close 0] ∧
          socket_count st' = -1 ∧
          0 ∉ open_fds st') ∧
  (∃ st', ibmoon_socket_send 5 4 (Io_os 4 0) init_state =
            Some (Result 1 4 ERROR_NONE, st') ∧
          trace st' = [Sys_send 0 4 4]).
Proof.
  split_and!.
  - exact init_state_slot.
  - done.
  - done.
  - by vm_compute.
  - done.
  - intros (_ & _ & Huniq).
    by specialize (Huniq 0%nat 1%nat 0 eq_refl eq_refl ltac:(done)).
  - exists (released 5 0 None init_state). split_and!; [|done|done|].
    + apply close_occupied; [by apply init_state_slot|done|done].
    + apply not_elem_of_remove.
  - eexists. split; [by vm_compute|done].
Qed.

End Properties.

(** * Further properties of the operations *)

Section Coverage.

Context `{errno_h} {SH : select_h}.

(** ** Send and receive *)

(** X1. A send on an identifier whose cell holds a descriptor issues one
    [send] on that descriptor and reports what the system returned: any
    return other than [SOCKET_ERROR] is a success carrying that count
    (a partial count, or 0, as it is), [SOCKET_ERROR] is a failure carrying
    the mapped [errno].  Either way the table and the open descriptors are
    as before: a failed send closes nothing. *)
Theorem send_reports_os_outcome (socket_id length fd : Z) os st :
  slot_holds st socket_id fd → fd ≠ INVALID_SOCKET →
  ∃ st',
    ibmoon_socket_send socket_id length os st =
      Some (if io_ret os =? SOCKET_ERROR
            then Result 0 0 (socket_error_of (io_errno os))
            else Result 1 (io_ret os) ERROR_NONE, st') ∧
    trace st' = trace st ++ [Sys_send fd length (io_ret os)] ∧
    same_table st st' ∧
    open_fds st' = open_fds st ∧
    nonblock_fds st' = nonblock_fds st.
Proof.
  intros Hs Hfd. unfold ibmoon_socket_send.
  rewrite (bind_eq _ _ _ _ _ (find_socket_holds _ _ _ Hs)).
  destruct (Z.eqb_spec fd INVALID_SOCKET) as [|_]; [done|].
  destruct os as [n e]. unfold same_table. unfold_sys. mcbn.
  destruct (n =? SOCKET_ERROR) eqn:Hn; mcbn; rewrite ?Hn; mcbn; by eexists.
Qed.

(** X2. A receive on an identifier whose cell holds a descriptor sets the
    receive timeout of the socket exactly when [timeout_ms > 0], then issues
    one [recv] and reports its return: [SOCKET_ERROR] is a failure with the
    mapped [errno], 0 is [Closed], anything else a success with that count.
    The table and the open descriptors are as before. *)
Theorem receive_reports_os_outcome
    (socket_id buffer_len timeout_ms fd : Z) os st :
  slot_holds st socket_id fd → fd ≠ INVALID_SOCKET →
  ∃ st',
    ibmoon_socket_receive socket_id buffer_len timeout_ms os st =
      Some (if io_ret os =? SOCKET_ERROR
            then Result 0 0 (socket_error_of (io_errno os))
            else if io_ret os =? 0 then Result 0 0 ERROR_CLOSED
            else Result 1 (io_ret os) ERROR_NONE, st') ∧
    trace st' =
      trace st ++
      (if 0 <? timeout_ms then [Sys_setsockopt_rcvtimeo fd timeout_ms] else []) ++
      [Sys_recv fd buffer_len (io_ret os)] ∧
    same_table st st' ∧
    open_fds st' = open_fds st.
Proof.
  intros Hs Hfd. unfold ibmoon_socket_receive.
  rewrite (bind_eq _ _ _ _ _ (find_socket_holds _ _ _ Hs)).
  destruct (Z.eqb_spec fd INVALID_SOCKET) as [|_]; [done|].
  destruct os as [n e]. unfold same_table. unfold_sys. mcbn.
  rewrite Z.gtb_ltb.
  destruct (0 <? timeout_ms); mcbn;
    destruct (n =? SOCKET_ERROR) eqn:Hn; mcbn; rewrite ?Hn; mcbn;
    try (destruct (n =? 0) eqn:Hz; mcbn);
    eexists; (split; [reflexivity|]); mcbn;
    rewrite <- ?app_assoc; by split_and!.
Qed.

(** X3. A timeout that is zero or negative counts as zero: connect and
    receive behave exactly as with [timeout_ms = 0] (no bounded wait, no
    receive timeout set). *)
Theorem nonpositive_timeout_is_zero (timeout_ms : Z) :
  timeout_ms <= 0 →
  (∀ host port os st,
     ibmoon_socket_connect host port timeout_ms os st =
     ibmoon_socket_connect host port 0 os st) ∧
  (∀ socket_id buffer_len os st,
     ibmoon_socket_receive socket_id buffer_len timeout_ms os st =
     ibmoon_socket_receive socket_id buffer_len 0 os st).
Proof.
  intros Ht.
  assert ((timeout_ms >? 0) = false) as Hgt.
  { rewrite Z.gtb_ltb. by apply Z.ltb_ge. }
  split; intros.
  - unfold ibmoon_socket_connect. by rewrite Hgt.
  - unfold ibmoon_socket_receive. by rewrite Hgt.
Qed.


(** ** Connect *)

Lemma add_remove_eq (x : Z) (X : gset Z) :
  ({[ x ]} ∪ X) ∖ {[ x ]} = X ∖ {[ x ]}.
Proof.
  apply set_eq. intros y.
  rewrite !elem_of_difference, elem_of_union, elem_of_singleton. tauto.
Qed.

(** X4. Failures before [connect] is called.  When [socket()] fails the
    operation returns [{false, 0, Unknown}] having issued no other call and
    changed nothing; when the address does not parse ([inet_pton <= 0]) it
    closes the socket it created and returns [{false, 0, Unknown}], having
    never called [connect]. *)
Theorem connect_setup_failures (host : string) (port timeout_ms : Z) os st :
  (socket_ret os = INVALID_SOCKET →
   ibmoon_socket_connect host port timeout_ms os st =
     Some (Result 0 0 ERROR_UNKNOWN,
           set_trace (trace st ++ [Sys_socket INVALID_SOCKET]) st)) ∧
  (socket_ret os ≠ INVALID_SOCKET → inet_pton_ret os <= 0 →
   ∃ st',
     ibmoon_socket_connect host port timeout_ms os st =
       Some (Result 0 0 ERROR_UNKNOWN, st') ∧
     same_table st st' ∧
     trace st' =
       trace st ++
       [Sys_socket (socket_ret os); Sys_fcntl_getfl (socket_ret os);
        Sys_fcntl_setfl (socket_ret os) true;
        Sys_inet_pton host (inet_pton_ret os); Sys_close (socket_ret os)] ∧
     open_fds st' = open_fds st ∖ {[ socket_ret os ]}).
Proof.
  unfold ibmoon_socket_connect, same_table.
  destruct os as [sock pton cres cerr sel soerr cl]. mcbn. split.
  - intros ->. unfold_sys. by mrun.
  - intros Hs Hp. unfold_sys. mrun.
    all: destruct cl; mcbn; eexists; (split; [reflexivity|]); mcbn;
      rewrite <- !app_assoc; split_and!; try done; apply add_remove_eq.
Qed.

(** X5. When [connect] fails at once with an error other than
    [EINPROGRESS], the socket is closed and the result is
    [{false, 0, e}] where [e] is mapped from [errno] as it stands after
    [close(sock)]: the error of [connect] when [close] succeeds, that of
    [close] when it fails.  No wait is made, whatever the timeout. *)
Theorem connect_immediate_failure (host : string) (port timeout_ms : Z) os st :
  socket_ret os ≠ INVALID_SOCKET → 0 < inet_pton_ret os →
  connect_ret os = SOCKET_ERROR → connect_errno os ≠ EINPROGRESS →
  ∃ st',
    ibmoon_socket_connect host port timeout_ms os st =
      Some (Result 0 0
              (socket_error_of
                 (match close_errno os with
                  | Some e => e
                  | None => connect_errno os
                  end)), st') ∧
    same_table st st' ∧
    trace st' = trace st ++ connect_prefix host port os ++
                [Sys_close (socket_ret os)] ∧
    open_fds st' = open_fds st ∖ {[ socket_ret os ]}.
Proof.
  unfold ibmoon_socket_connect, connect_prefix, same_table.
  destruct os as [sock pton cres cerr sel soerr cl]. mcbn.
  intros Hs Hp Hc He. subst cres. unfold_sys. mrun.
  all: destruct cl; mcbn; eexists; (split; [reflexivity|]); mcbn;
    rewrite <- !app_assoc; split_and!; try done; apply add_remove_eq.
Qed.

(** X6. With [timeout_ms > 0] and a connect in progress on a descriptor
    that [write_fds] has room for ([0 <= sock < FD_SETSIZE]), a [select]
    that returns a negative value (an error of the wait itself) closes the
    socket and gives [{false, 0, Unknown}]; the pending error is not read. *)
Theorem connect_select_error (host : string) (port timeout_ms : Z) os st :
  0 < timeout_ms → in_progress os → 0 <= socket_ret os < FD_SETSIZE →
  select_ret os < 0 →
  ∃ st',
    ibmoon_socket_connect host port timeout_ms os st =
      Some (Result 0 0 ERROR_UNKNOWN, st') ∧
    same_table st st' ∧
    trace st' = trace st ++ connect_prefix host port os ++
                [Sys_select (socket_ret os) timeout_ms (select_ret os);
                 Sys_close (socket_ret os)] ∧
    open_fds st' = open_fds st ∖ {[ socket_ret os ]}.
Proof.
  intros Ht (Hs & Hp & Hc & He) [Hlo Hhi] Hsel.
  unfold ibmoon_socket_connect, connect_prefix, same_table.
  destruct os as [sock pton cres cerr sel soerr cl].
  cbn in Hs, Hp, Hc, He, Hlo, Hhi, Hsel.
  unfold_sys. mrun.
  all: destruct cl; mcbn; eexists; (split; [reflexivity|]); mcbn;
    rewrite <- !app_assoc; split_and!; try done; apply add_remove_eq.
Qed.

Lemma slot_holds_other_cell (a b v w : Z) st st' :
  sockets st' = <[Z.to_nat (c_rem a MAX_SOCKETS) := w]> (sockets st) →
  in_bounds (c_rem a MAX_SOCKETS) = true →
  c_rem b MAX_SOCKETS ≠ c_rem a MAX_SOCKETS →
  slot_holds st' b v ↔ slot_holds st b v.
Proof.
  intros Hs Ha Hne. unfold slot_holds. rewrite Hs.
  split; intros [Hb Hv]; (split; [done|]).
  - rewrite list_lookup_insert_ne in Hv; [done|].
    unfold in_bounds in Ha, Hb.
    apply andb_true_iff in Ha as [?%Z.leb_le _].
    apply andb_true_iff in Hb as [?%Z.leb_le _]. lia.
  - rewrite list_lookup_insert_ne; [done|].
    unfold in_bounds in Ha, Hb.
    apply andb_true_iff in Ha as [?%Z.leb_le _].
    apply andb_true_iff in Hb as [?%Z.leb_le _]. lia.
Qed.

(** X7. Whenever the answers of the system lead connect to registration
    (if through the bounded wait, then on a descriptor that [write_fds] has
    room for) and the table has room, the result is [{true, id, None}] with
    [id] the
    value of [next_socket_id] before the call; the new socket is open, back
    in blocking mode, and sits in the cell of [id]; every other cell is as
    before; [socket_count] and [next_socket_id] are each one higher. *)
Theorem connect_success_registers (host : string) (port timeout_ms : Z) os st :
  reaches_registration timeout_ms os = true →
  wait_defined timeout_ms os = true → table_ok st →
  socket_count st < MAX_SOCKETS →
  ∃ st',
    ibmoon_socket_connect host port timeout_ms os st =
      Some (Result 1 (next_socket_id st) ERROR_NONE, st') ∧
    slot_holds st' (next_socket_id st) (socket_ret os) ∧
    (∀ b v, c_rem b MAX_SOCKETS ≠ c_rem (next_socket_id st) MAX_SOCKETS →
            slot_holds st' b v ↔ slot_holds st b v) ∧
    socket_count st' = socket_count st + 1 ∧
    next_socket_id st' = next_socket_id st + 1 ∧
    open_fds st' = {[ socket_ret os ]} ∪ open_fds st ∧
    (socket_ret os ∉ nonblock_fds st') ∧
    trace st' = trace st ++ connect_prefix host port os ++
                connect_wait timeout_ms os ++
                [Sys_fcntl_getfl (socket_ret os);
                 Sys_fcntl_setfl (socket_ret os) false].
Proof.
  intros Hreach Hwd Hok Hroom. pose proof Hok as (Hlen & [Hn0 Hn] & Hc).
  rewrite connect_reaches by done.
  rewrite connect_tail_ok; [|done|exact Hok].
  eexists. split; [reflexivity|].
  cbn [sockets socket_count next_socket_id open_fds nonblock_fds trace
       at_registration].
  pose proof (c_rem_in_bounds _ Hn0) as Hb.
  split_and!; try done.
  - split; [done|]. cbn [sockets]. rewrite c_rem_nonneg by done.
    apply list_lookup_insert_eq. rewrite <- c_rem_nonneg by done.
    by apply in_bounds_lt.
  - intros b v Hne. eapply slot_holds_other_cell; [|exact Hb|exact Hne].
    cbn [sockets]. by rewrite c_rem_nonneg.
  - apply not_elem_of_remove.
  - by rewrite <- !app_assoc.
Qed.

Lemma connect_success_room (host : string) (port timeout_ms : Z) os st r st' :
  ibmoon_socket_connect host port timeout_ms os st = Some (r, st') →
  success r = 1 →
  reaches_registration timeout_ms os = true ∧ socket_count st < MAX_SOCKETS.
Proof.
  intros Hr Hsucc.
  pose proof (connect_Some_wait_defined _ _ _ _ _ _ _ Hr) as Hwd.
  destruct (reaches_registration timeout_ms os) eqn:Hreach.
  - split; [done|]. rewrite connect_reaches in Hr by done.
    destruct (Z.lt_ge_cases (socket_count st) MAX_SOCKETS) as [|Hfull]; [done|].
    rewrite connect_tail_full in Hr by done.
    injection Hr as <- <-. discriminate Hsucc.
  - destruct (connect_not_reaches host port timeout_ms os st Hreach Hwd)
      as (r' & s' & Hc & _ & Hfail & _).
    rewrite Hr in Hc. injection Hc as <- <-. rewrite Hfail in Hsucc.
    discriminate Hsucc.
Qed.

(** X8. Connect reports success exactly when the answers of the system
    lead to registration (socket created, address parsed, connection
    established at once, or in progress and either not waited for or
    confirmed by [select] and [SO_ERROR]) and the table has room. *)
Theorem connect_succeeds_iff (host : string) (port timeout_ms : Z) os st r st' :
  table_ok st →
  ibmoon_socket_connect host port timeout_ms os st = Some (r, st') →
  (success r = 1 ↔
   reaches_registration timeout_ms os = true ∧ socket_count st < MAX_SOCKETS).
Proof.
  intros Hok Hr.
  pose proof (connect_Some_wait_defined _ _ _ _ _ _ _ Hr) as Hwd. split.
  - by eapply connect_success_room.
  - intros [Hreach Hroom].
    rewrite connect_reaches in Hr by done.
    rewrite connect_tail_ok in Hr; [|done|exact Hok].
    by injection Hr as <- <-.
Qed.


Lemma connect_not_reaches_closes (host : string) (port timeout_ms : Z) os st :
  reaches_registration timeout_ms os = false →
  wait_defined timeout_ms os = true →
  ∃ r st', ibmoon_socket_connect host port timeout_ms os st = Some (r, st') ∧
           (socket_ret os = INVALID_SOCKET → open_fds st' = open_fds st) ∧
           (socket_ret os ≠ INVALID_SOCKET →
            open_fds st' = open_fds st ∖ {[ socket_ret os ]} ∧
            last (trace st') = Some (Sys_close (socket_ret os))).
Proof.
  unfold reaches_registration, wait_defined, waits, ibmoon_socket_connect.
  destruct os as [sock pton cres cerr sel soerr cl].
  unfold_sys. mrun.
  all: intros Hr Hw; try discriminate Hr; try discriminate Hw.
  all: destruct cl; mcbn; do 2 eexists; (split; [reflexivity|]); mcbn.
  all: split; [done|]; intros Hsock; try done.
  all: split; [apply add_remove_eq|by rewrite last_snoc].
Qed.

Lemma connect_tail_failure os (sock : Z) st r st' :
  connect_tail os sock st = Some (r, st') → success r = 0 →
  r = Result 0 0 ERROR_UNKNOWN ∧
  open_fds st' = open_fds st ∖ {[ sock ]} ∧
  last (trace st') = Some (Sys_close sock).
Proof.
  unfold connect_tail. intros Hr Hfail.
  apply bind_Some in Hr as ([] & s1 & [= <-] & Hr).
  apply bind_Some in Hr as (id & s2 & Hst & Hr).
  assert (open_fds s2 = open_fds st) as Hopen.
  { by apply store_socket_inv in Hst as [(_ & _ & ->)|(_ & _ & _ & ->)]. }
  destruct (id <? 0).
  - rewrite (bind_eq _ _ _ _ _ (sys_close_eq sock (close_errno os) s2)) in Hr.
    injection Hr as <- <-. cbn [open_fds trace]. rewrite Hopen.
    split_and!; [done|done|by rewrite last_snoc].
  - injection Hr as <- <-. discriminate Hfail.
Qed.

(** X9. A connect that reports failure leaves no socket behind: if it
    created one, the last call it issued is [close] on it and the descriptor
    is not open afterwards; all other descriptors are open or closed as
    before; the value returned is 0, and the table is unchanged. *)
Theorem connect_failure_releases_socket
    (host : string) (port timeout_ms : Z) os st r st' :
  ibmoon_socket_connect host port timeout_ms os st = Some (r, st') →
  success r = 0 → 0 <= next_socket_id st →
  value r = 0 ∧
  same_table st st' ∧
  (socket_ret os = INVALID_SOCKET → open_fds st' = open_fds st) ∧
  (socket_ret os ≠ INVALID_SOCKET →
   open_fds st' = open_fds st ∖ {[ socket_ret os ]} ∧
   (socket_ret os ∉ open_fds st') ∧
   last (trace st') = Some (Sys_close (socket_ret os))).
Proof.
  intros Hr Hfail Hn.
  pose proof (connect_Some_wait_defined _ _ _ _ _ _ _ Hr) as Hwd.
  assert (same_table st st') as Hsame.
  { destruct (connect_cases _ _ _ _ _ _ _ Hr Hn) as [[_ Hs]|[-> _]]; [done|].
    discriminate Hfail. }
  destruct (reaches_registration timeout_ms os) eqn:Hreach.
  - assert (socket_ret os ≠ INVALID_SOCKET) as Hsock.
    { unfold reaches_registration in Hreach.
      apply andb_true_iff in Hreach as [[Hs _]%andb_true_iff _].
      by apply negb_true_iff, Z.eqb_neq in Hs. }
    rewrite connect_reaches in Hr by done.
    apply connect_tail_failure in Hr as (-> & Hopen & Hlast); [|done].
    cbn [open_fds at_registration] in Hopen. rewrite add_remove_eq in Hopen.
    split_and!; try done. intros _. split_and!; [done| |done].
    rewrite Hopen. apply not_elem_of_remove.
  - destruct (connect_not_reaches host port timeout_ms os st Hreach Hwd)
      as (r1 & s1 & Hc1 & _ & _ & Hval & _).
    destruct (connect_not_reaches_closes host port timeout_ms os st Hreach Hwd)
      as (r2 & s2 & Hc2 & Hnone & Hsome).
    rewrite Hr in Hc1, Hc2. injection Hc1 as <- <-.
    injection Hc2 as Hr2 Hs2. subst r2 s2.
    split_and!; [done|done|exact Hnone|].
    intros Hsock.
    destruct (Hsome Hsock) as [Hopen Hlast]. split_and!; [done| |done].
    rewrite Hopen. apply not_elem_of_remove.
Qed.

(** ** What a call can change *)

(** The three things a call can do to the statics. *)
Lemma step_cases (c : call) st r st' :
  step c st = Some (r, st') → 0 <= next_socket_id st →
  (same_table st st' ∧ touched_cell c r = None) ∨
  (r = Result 1 (next_socket_id st) ERROR_NONE ∧
   (∃ host port timeout_ms os,
      c = Connect host port timeout_ms os ∧
      sockets st' =
        <[Z.to_nat (c_rem (next_socket_id st) MAX_SOCKETS) := socket_ret os]>
          (sockets st)) ∧
   in_bounds (c_rem (next_socket_id st) MAX_SOCKETS) = true ∧
   socket_count st < MAX_SOCKETS ∧
   socket_count st' = socket_count st + 1 ∧
   next_socket_id st' = next_socket_id st + 1) ∨
  (r = Result 1 0 ERROR_NONE ∧
   ∃ socket_id close_err fd,
     c = Close socket_id close_err ∧
     slot_holds st socket_id fd ∧ fd ≠ INVALID_SOCKET ∧
     st' = released socket_id fd close_err st).
Proof.
  intros Hstep Hn.
  destruct c as [host port t os|id len os|id len t os|id e]; cbn [step] in Hstep.
  - destruct (connect_cases _ _ _ _ _ _ _ Hstep Hn)
      as [[Hfail Hsame]|(-> & Hb & Hs & Hc & Hnx)].
    + left. split; [done|]. cbn [touched_cell]. by rewrite Hfail.
    + right. left.
      destruct (connect_success_room _ _ _ _ _ _ _ Hstep eq_refl) as [_ Hroom].
      split_and!; try done. by exists host, port, t, os.
  - left. split; [by eapply send_same_table|done].
  - left. split; [by eapply receive_same_table|done].
  - apply close_cases in Hstep as [(-> & -> & _)|(fd & Hs & Hfd & -> & ->)].
    + left. split; [apply same_table_refl|done].
    + right. right. split; [done|]. by exists id, e, fd.
Qed.

(** X10. A call that reports failure leaves [sockets], [socket_count] and
    [next_socket_id] as they were, and so does every send and receive,
    successful or not: only a successful connect and a successful close
    change the table. *)
Theorem failure_leaves_table (c : call) st r st' :
  step c st = Some (r, st') → 0 <= next_socket_id st →
  (success r = 0 → same_table st st') ∧
  (match c with
   | Send _ _ _ | Receive _ _ _ _ => same_table st st'
   | _ => True
   end).
Proof.
  intros Hstep Hn. split.
  - intros Hfail.
    destruct (step_cases c st r st' Hstep Hn)
      as [[Hsame _]|[(-> & _)|(-> & _)]]; [done|discriminate|discriminate].
  - destruct c; cbn [step] in Hstep; [done| | |done].
    + by eapply send_same_table.
    + by eapply receive_same_table.
Qed.

(** X11. A call writes at most one cell of the table: the cell of the
    identifier a successful connect returns, or of the identifier given to a
    successful close.  Every other cell holds what it held, and the array
    keeps its length. *)
Theorem step_touches_one_cell (c : call) st r st' :
  step c st = Some (r, st') → 0 <= next_socket_id st →
  length (sockets st') = length (sockets st) ∧
  ∀ i, touched_cell c r ≠ Some i → sockets st' !! i = sockets st !! i.
Proof.
  intros Hstep Hn.
  destruct (step_cases c st r st' Hstep Hn)
    as [[(Hs & _) _]
       |[(-> & (host & port & t & os & -> & Hs) & _)
        |(-> & id & e & fd & -> & _ & _ & ->)]].
  - by rewrite Hs.
  - rewrite Hs. split; [apply length_insert|].
    intros i Hi. cbn in Hi. apply list_lookup_insert_ne. congruence.
  - cbn [sockets released]. split; [apply length_insert|].
    intros i Hi. cbn in Hi. apply list_lookup_insert_ne. congruence.
Qed.


(** ** Invariants along a sequence of calls *)

Lemma step_next_socket_id (c : call) st r st' :
  step c st = Some (r, st') → 0 <= next_socket_id st →
  (next_socket_id st' = next_socket_id st ∧
   connect_ids [c] [r] = []) ∨
  (next_socket_id st' = next_socket_id st + 1 ∧
   connect_ids [c] [r] = [next_socket_id st]).
Proof.
  intros Hstep Hn.
  destruct (step_cases c st r st' Hstep Hn)
    as [[(_ & _ & Hnx) Htouch]
       |[(-> & (host & port & t & os & -> & _) & _ & _ & _ & Hnx)
        |(-> & id & e & fd & -> & _ & _ & ->)]].
  - left. split; [done|]. unfold connect_ids. cbn.
    destruct c; try done. cbn in Htouch. by destruct (success r =? 1).
  - right. by split.
  - left. by split.
Qed.

Lemma run_invariant (P : state → Prop) :
  (∀ c st r st',
     step c st = Some (r, st') → 0 <= next_socket_id st → P st → P st') →
  ∀ cs st rs st',
    run cs st = Some (rs, st') → 0 <= next_socket_id st → P st →
    P st' ∧ 0 <= next_socket_id st'.
Proof.
  intros Hstep. induction cs as [|c cs IH]; intros st rs st' Hrun Hn HP.
  - by injection Hrun as <- <-.
  - apply run_cons_Some in Hrun as (r & st1 & rs' & Hc & Hrun & ->).
    apply (IH st1 rs' st' Hrun).
    + destruct (step_next_socket_id c st r st1 Hc Hn) as [[-> _]|[-> _]]; lia.
    + by eapply Hstep.
Qed.

(** X12. Identifiers are handed out in sequence: along any calls, the
    successful connects return, in order, the consecutive values from
    [next_socket_id] on, one per success; no identifier is returned twice
    and none is skipped, whatever was closed in between. *)
Theorem identifiers_consecutive (cs : list call) :
  ∀ st rs st',
    run cs st = Some (rs, st') → 0 <= next_socket_id st →
    next_socket_id st <= next_socket_id st' ∧
    connect_ids cs rs =
      seqZ (next_socket_id st) (next_socket_id st' - next_socket_id st).
Proof.
  induction cs as [|c cs IH]; intros st rs st' Hrun Hn.
  - injection Hrun as <- <-. split; [done|]. by rewrite Z.sub_diag.
  - apply run_cons_Some in Hrun as (r & st1 & rs' & Hc & Hrun & ->).
    assert (connect_ids (c :: cs) (r :: rs') =
            connect_ids [c] [r] ++ connect_ids cs rs') as Happ.
    { unfold connect_ids. cbn [zip zip_with omap list_omap].
      by destruct (match (c, r).1 with Connect _ _ _ _ => _ | _ => _ end). }
    rewrite Happ.
    destruct (step_next_socket_id c st r st1 Hc Hn) as [[Hnx ->]|[Hnx ->]].
    + destruct (IH st1 rs' st' Hrun ltac:(lia)) as [Hle Hids].
      rewrite Hnx in Hle, Hids. by split.
    + destruct (IH st1 rs' st' Hrun ltac:(lia)) as [Hle Hids].
      rewrite Hnx in Hle, Hids. split; [lia|].
      rewrite Hids. cbn [app].
      rewrite (seqZ_cons (next_socket_id st)) by lia.
      f_equal. f_equal; lia.
Qed.

(** X13. [socket_count] never exceeds [MAX_SOCKETS]: if it is at most 256
    before a sequence of calls, it is at most 256 after it. *)
Theorem socket_count_bounded (cs : list call) st rs st' :
  run cs st = Some (rs, st') → 0 <= next_socket_id st →
  socket_count st <= MAX_SOCKETS →
  socket_count st' <= MAX_SOCKETS.
Proof.
  intros Hrun Hn Hc.
  refine (proj1 (run_invariant (λ s, socket_count s <= MAX_SOCKETS) _
                   cs st rs st' Hrun Hn Hc)).
  clear. intros c st r st' Hstep Hn Hc.
  destruct (step_cases c st r st' Hstep Hn)
    as [[(_ & -> & _) _]
       |[(_ & _ & _ & Hroom & -> & _)
        |(_ & id & e & fd & _ & _ & _ & ->)]].
  - done.
  - lia.
  - cbn [socket_count released]. lia.
Qed.

Lemma occupied_slots_insert_le (i : nat) (v : Z) st st' :
  sockets st' = <[i := v]> (sockets st) →
  occupied_slots st' <= occupied_slots st + 1.
Proof.
  intros Hs. unfold occupied_slots. rewrite Hs.
  destruct (sockets st !! i) as [old|] eqn:Hold.
  - pose proof (filter_insert_length (λ v, v ≠ INVALID_SOCKET) _ i old v Hold).
    repeat case_decide; lia.
  - rewrite list_insert_ge by by apply lookup_ge_None. lia.
Qed.

(** X14. [socket_count] never falls below the number of occupied cells:
    if every occupied cell is counted before a sequence of calls, it is
    after it.  (The two need not stay equal: a connect onto an occupied cell
    counts one more without occupying one more.) *)
Theorem occupied_at_most_counted (cs : list call) st rs st' :
  run cs st = Some (rs, st') → 0 <= next_socket_id st →
  occupied_slots st <= socket_count st →
  occupied_slots st' <= socket_count st'.
Proof.
  intros Hrun Hn Hc.
  refine (proj1 (run_invariant (λ s, occupied_slots s <= socket_count s) _
                   cs st rs st' Hrun Hn Hc)).
  clear. intros c st r st' Hstep Hn Hc.
  destruct (step_cases c st r st' Hstep Hn)
    as [[(Hs & -> & _) _]
       |[(_ & (host & port & t & os & _ & Hs) & _ & _ & -> & _)
        |(_ & id & e & fd & _ & [_ Hfd] & Hne & ->)]].
  - unfold occupied_slots in *. by rewrite Hs.
  - pose proof (occupied_slots_insert_le _ _ st st' Hs). lia.
  - rewrite (occupied_slots_release _ fd st
               (released id fd e st) Hfd eq_refl Hne).
    cbn [socket_count released]. lia.
Qed.

(** X15. The cells and the descriptors stay in order along any calls: if
    every cell other than the sentinel holds an open descriptor and no two
    cells hold the same one, this is still so afterwards, provided each
    [socket()] hands out a descriptor that is not open at that moment. *)
Theorem table_inv_preserved (cs : list call) :
  ∀ st rs st',
    run cs st = Some (rs, st') → 0 <= next_socket_id st →
    table_inv st → fresh_run cs st →
    table_inv st'.
Proof.
  induction cs as [|c cs IH]; intros st rs st' Hrun Hn Hinv Hfresh.
  - by injection Hrun as <- <-.
  - apply run_cons_Some in Hrun as (r & st1 & rs' & Hc & Hrun & ->).
    destruct Hfresh as [Hf Hrest]. rewrite Hc in Hrest.
    apply (IH st1 rs' st' Hrun).
    + destruct (step_next_socket_id c st r st1 Hc Hn) as [[-> _]|[-> _]]; lia.
    + by eapply table_inv_step.
    + done.
Qed.


(** ** Edges of the table *)

(** X16. The identifier is used as an index without a check of its sign:
    for a negative identifier that is no multiple of 256 the index
    [socket_id % MAX_SOCKETS] is negative, so send, receive and close all
    read before the start of [sockets] (no defined result); a negative
    multiple of 256 has index 0 and is served like identifier 0. *)
Theorem negative_identifier_unchecked (socket_id : Z) :
  socket_id < 0 →
  (c_rem socket_id MAX_SOCKETS ≠ 0 →
   c_rem socket_id MAX_SOCKETS < 0 ∧
   ∀ st,
     (∀ length os, ibmoon_socket_send socket_id length os st = None) ∧
     (∀ buffer_len timeout_ms os,
        ibmoon_socket_receive socket_id buffer_len timeout_ms os st = None) ∧
     (∀ e, ibmoon_socket_close socket_id e st = None)) ∧
  (c_rem socket_id MAX_SOCKETS = 0 →
   ∀ st,
     (∀ length os, ibmoon_socket_send socket_id length os st =
                   ibmoon_socket_send 0 length os st) ∧
     (∀ buffer_len timeout_ms os,
        ibmoon_socket_receive socket_id buffer_len timeout_ms os st =
        ibmoon_socket_receive 0 buffer_len timeout_ms os st) ∧
     (∀ e, ibmoon_socket_close socket_id e st = ibmoon_socket_close 0 e st)).
Proof.
  intros Hneg. split.
  - intros Hnz. split.
    { pose proof (Z.rem_nonpos socket_id MAX_SOCKETS ltac:(done) ltac:(lia)).
      unfold c_rem in *. lia. }
    intros st.
    pose proof (find_socket_negative socket_id st Hneg Hnz) as Hfind.
    split_and!; intros.
    + unfold ibmoon_socket_send, bind. by rewrite Hfind.
    + unfold ibmoon_socket_receive, bind. by rewrite Hfind.
    + unfold ibmoon_socket_close, bind. by rewrite Hfind.
  - intros Hz st.
    assert (find_socket socket_id = find_socket 0) as Hfind.
    { unfold find_socket. by rewrite Hz. }
    split_and!; intros.
    + unfold ibmoon_socket_send. by rewrite Hfind.
    + unfold ibmoon_socket_receive. by rewrite Hfind.
    + unfold ibmoon_socket_close, remove_socket. by rewrite Hfind, Hz.
Qed.

(** X17. Releasing is idempotent on the table: a [remove_socket] right
    after a [remove_socket] of the same identifier finds the sentinel, issues
    no call and changes nothing. *)
Theorem remove_socket_idempotent (socket_id : Z) (e1 e2 : option Z) st st1 :
  remove_socket socket_id e1 st = Some (tt, st1) →
  remove_socket socket_id e2 st1 = Some (tt, st1).
Proof.
  intros Hrem. apply remove_socket_empty.
  pose proof Hrem as Hrem'. unfold remove_socket in Hrem'.
  apply bind_Some in Hrem' as (cur & s0 & [-> [Hb Hcur]]%read_slot_Some & Hk).
  destruct (Z.eqb_spec cur INVALID_SOCKET) as [->|Hne]; cbn [negb] in Hk.
  - injection Hk as <-. by split.
  - rewrite (remove_socket_inv socket_id cur e1 st st1 Hrem); [|by split|done].
    apply released_slot. by split.
Qed.

(** X18. A close makes room in a full table, and the next connect takes
    the cell of its own identifier, not the one that was freed: after a
    close on a live identifier of a table with [socket_count = 256], a
    connect that reaches registration (if through the bounded wait, then on
    a descriptor that [write_fds] has room for) succeeds with the next
    identifier, and when that identifier has another cell the freed cell
    still holds the sentinel. *)
Theorem close_makes_room
    (socket_id fd : Z) (e : option Z) (host : string) (port timeout_ms : Z)
    os st :
  table_ok st → socket_count st = MAX_SOCKETS →
  slot_holds st socket_id fd → fd ≠ INVALID_SOCKET →
  reaches_registration timeout_ms os = true →
  wait_defined timeout_ms os = true →
  ∃ st1 st2,
    ibmoon_socket_close socket_id e st = Some (Result 1 0 ERROR_NONE, st1) ∧
    ibmoon_socket_connect host port timeout_ms os st1 =
      Some (Result 1 (next_socket_id st) ERROR_NONE, st2) ∧
    socket_count st2 = MAX_SOCKETS ∧
    slot_holds st2 (next_socket_id st) (socket_ret os) ∧
    (c_rem socket_id MAX_SOCKETS ≠ c_rem (next_socket_id st) MAX_SOCKETS →
     slot_holds st2 socket_id INVALID_SOCKET).
Proof.
  intros Hok Hfull Hs Hfd Hreach Hwd. pose proof Hok as (Hlen & [Hn0 Hn] & Hc).
  exists (released socket_id fd e st).
  pose proof (c_rem_in_bounds _ Hn0) as Hb.
  assert (table_ok (released socket_id fd e st)) as Hok1.
  { split_and!; cbn [sockets next_socket_id socket_count released];
      [by rewrite length_insert|done|done|unfold_consts; lia]. }
  rewrite connect_reaches by done.
  rewrite connect_tail_ok;
    [|cbn [socket_count released at_registration]; lia|exact Hok1].
  eexists. split_and!.
  - by apply close_occupied.
  - reflexivity.
  - cbn [socket_count released at_registration]. lia.
  - split; [done|].
    cbn [sockets next_socket_id released at_registration].
    rewrite c_rem_nonneg by done. apply list_lookup_insert_eq.
    rewrite length_insert, <- c_rem_nonneg by done. by apply in_bounds_lt.
  - intros Hne. destruct Hs as [Hbs Hv]. split; [done|].
    cbn [sockets next_socket_id released at_registration].
    rewrite <- c_rem_nonneg by done.
    rewrite list_lookup_insert_ne.
    + apply list_lookup_insert_eq. by eapply lookup_lt_Some.
    + unfold in_bounds in Hb, Hbs.
      apply andb_true_iff in Hb as [?%Z.leb_le _].
      apply andb_true_iff in Hbs as [?%Z.leb_le _]. lia.
Qed.

(** ** Round trips through the interface *)

Lemma connect_registered (host : string) (port timeout_ms : Z) os st :
  reaches_registration timeout_ms os = true →
  wait_defined timeout_ms os = true → table_ok st →
  socket_count st < MAX_SOCKETS →
  ∃ st',
    ibmoon_socket_connect host port timeout_ms os st =
      Some (Result 1 (next_socket_id st) ERROR_NONE, st') ∧
    slot_holds st' (next_socket_id st) (socket_ret os) ∧
    socket_ret os ≠ INVALID_SOCKET ∧
    socket_count st' = socket_count st + 1 ∧
    next_socket_id st' = next_socket_id st + 1 ∧
    open_fds st' = {[ socket_ret os ]} ∪ open_fds st.
Proof.
  intros Hreach Hwd Hok Hroom. pose proof Hok as (Hlen & [Hn0 Hn] & Hc).
  rewrite connect_reaches by done.
  rewrite connect_tail_ok; [|done|exact Hok].
  eexists. split; [reflexivity|].
  cbn [socket_count next_socket_id open_fds at_registration].
  split_and!; try done.
  - split; [by apply c_rem_in_bounds|]. cbn [sockets at_registration].
    rewrite c_rem_nonneg by done. apply list_lookup_insert_eq.
    rewrite <- c_rem_nonneg by done.
    apply in_bounds_lt; [by apply c_rem_in_bounds|done].
  - unfold reaches_registration in Hreach.
    apply andb_true_iff in Hreach as [[Hs _]%andb_true_iff _].
    by apply negb_true_iff, Z.eqb_neq in Hs.
Qed.

Lemma transfer_last_call (socket_id fd len : Z) os st :
  slot_holds st socket_id fd → fd ≠ INVALID_SOCKET →
  (∃ r st', ibmoon_socket_send socket_id len os st = Some (r, st') ∧
            last (trace st') = Some (Sys_send fd len (io_ret os))) ∧
  (∀ timeout_ms,
   ∃ r st', ibmoon_socket_receive socket_id len timeout_ms os st = Some (r, st') ∧
            last (trace st') = Some (Sys_recv fd len (io_ret os))).
Proof.
  intros Hs Hfd. split; [|intros timeout_ms].
  - unfold ibmoon_socket_send.
    rewrite (bind_eq _ _ _ _ _ (find_socket_holds _ _ _ Hs)).
    destruct (Z.eqb_spec fd INVALID_SOCKET) as [|_]; [done|].
    destruct os as [n e]. unfold_sys. mrun.
    all: do 2 eexists; (split; [reflexivity|]); mcbn; by rewrite last_snoc.
  - unfold ibmoon_socket_receive.
    rewrite (bind_eq _ _ _ _ _ (find_socket_holds _ _ _ Hs)).
    destruct (Z.eqb_spec fd INVALID_SOCKET) as [|_]; [done|].
    destruct os as [n e]. unfold_sys. mrun.
    all: do 2 eexists; (split; [reflexivity|]); mcbn; by rewrite last_snoc.
Qed.

Lemma run_keeps_cell (i : nat) (cs : list call) :
  ∀ st rs st',
    run cs st = Some (rs, st') → 0 <= next_socket_id st →
    untouched i cs rs →
    sockets st' !! i = sockets st !! i.
Proof.
  induction cs as [|c cs IH]; intros st rs st' Hrun Hn Hun.
  - by injection Hrun as <- <-.
  - apply run_cons_Some in Hrun as (r & st1 & rs' & Hc & Hrun & ->).
    assert (touched_cell c r ≠ Some i) as Hci.
    { apply Hun. cbn [zip zip_with]. by left. }
    assert (untouched i cs rs') as Hrest.
    { intros c' r' Hin. apply Hun. cbn [zip zip_with]. by right. }
    assert (sockets st1 !! i = sockets st !! i ∧ 0 <= next_socket_id st1)
      as [Hcell Hn1].
    { destruct (step_cases c st r st1 Hc Hn)
        as [[(Hs & _ & Hnx) _]
           |[(-> & (host & port & t & os & -> & Hs) & _ & _ & _ & Hnx)
            |(-> & id & e & fd & -> & _ & _ & ->)]].
      - rewrite Hs, Hnx. by split.
      - rewrite Hs, Hnx. split; [|lia].
        cbn in Hci. apply list_lookup_insert_ne. congruence.
      - cbn [sockets next_socket_id released]. split; [|done].
        cbn in Hci. apply list_lookup_insert_ne. congruence. }
    rewrite <- Hcell. by apply (IH st1 rs' st' Hrun Hn1).
Qed.

(** X19. What a successful connect registers is what the later calls
    use: after any further calls of which none writes the cell of the
    returned identifier (no successful connect into it, no successful close
    on it), a send or a receive on that identifier is issued on the
    descriptor that this connect created. *)
Theorem connect_then_transfer
    (host : string) (port timeout_ms length buffer_len recv_timeout : Z)
    os (sos ros : io_os) st :
  reaches_registration timeout_ms os = true →
  wait_defined timeout_ms os = true → table_ok st →
  socket_count st < MAX_SOCKETS →
  ∃ st1,
    ibmoon_socket_connect host port timeout_ms os st =
      Some (Result 1 (next_socket_id st) ERROR_NONE, st1) ∧
    ∀ cs crs st2,
      run cs st1 = Some (crs, st2) →
      untouched (Z.to_nat (c_rem (next_socket_id st) MAX_SOCKETS)) cs crs →
      (∃ rs st3,
         ibmoon_socket_send (next_socket_id st) length sos st2 =
           Some (rs, st3) ∧
         last (trace st3) =
           Some (Sys_send (socket_ret os) length (io_ret sos))) ∧
      (∃ rr st3,
         ibmoon_socket_receive (next_socket_id st) buffer_len recv_timeout ros
           st2 = Some (rr, st3) ∧
         last (trace st3) =
           Some (Sys_recv (socket_ret os) buffer_len (io_ret ros))).
Proof.
  intros Hreach Hwd Hok Hroom. pose proof Hok as (_ & [Hn0 _] & _).
  destruct (connect_registered host port timeout_ms os st Hreach Hwd Hok Hroom)
    as (st1 & Hc & [Hb Hcell] & Hsock & _ & Hnext & _).
  exists st1. split; [exact Hc|].
  intros cs crs st2 Hrun Hun.
  assert (slot_holds st2 (next_socket_id st) (socket_ret os)) as Hslot.
  { split; [done|]. rewrite <- Hcell.
    apply (run_keeps_cell _ cs st1 crs st2 Hrun); [lia|done]. }
  destruct (transfer_last_call _ _ length sos st2 Hslot Hsock) as [Hsend _].
  destruct (transfer_last_call _ _ buffer_len ros st2 Hslot Hsock)
    as [_ Hrecv].
  split; [exact Hsend|exact (Hrecv recv_timeout)].
Qed.

(** X20. A connect that reaches registration (if through the bounded
    wait, then on a descriptor that [write_fds] has room for), followed by
    close of the returned identifier, undoes the registration: the close
    succeeds, its last call is [close] on the
    descriptor the connect created, the cell holds the sentinel again and
    [socket_count] is back at its value; with a descriptor that was not open
    before, the open descriptors are those from before.  The identifier is
    spent: [next_socket_id] stays one higher. *)
Theorem connect_close_round_trip
    (host : string) (port timeout_ms : Z) (e : option Z) os st :
  reaches_registration timeout_ms os = true →
  wait_defined timeout_ms os = true → table_ok st →
  socket_count st < MAX_SOCKETS →
  ∃ st1 st2,
    ibmoon_socket_connect host port timeout_ms os st =
      Some (Result 1 (next_socket_id st) ERROR_NONE, st1) ∧
    ibmoon_socket_close (next_socket_id st) e st1 =
      Some (Result 1 0 ERROR_NONE, st2) ∧
    last (trace st2) = Some (Sys_close (socket_ret os)) ∧
    slot_holds st2 (next_socket_id st) INVALID_SOCKET ∧
    socket_count st2 = socket_count st ∧
    next_socket_id st2 = next_socket_id st + 1 ∧
    open_fds st2 = open_fds st ∖ {[ socket_ret os ]} ∧
    (socket_ret os ∉ open_fds st → open_fds st2 = open_fds st).
Proof.
  intros Hreach Hwd Hok Hroom. pose proof Hok as (_ & _ & Hmin).
  destruct (connect_registered host port timeout_ms os st Hreach Hwd Hok Hroom)
    as (st1 & Hc & Hslot & Hsock & Hcount & Hnext & Hopen).
  exists st1, (released (next_socket_id st) (socket_ret os) e st1).
  assert (open_fds st1 ∖ {[ socket_ret os ]} = open_fds st ∖ {[ socket_ret os ]})
    as Hopen2 by (rewrite Hopen; apply add_remove_eq).
  split_and!.
  - exact Hc.
  - apply close_occupied; [done|done|lia].
  - cbn [trace released]. by rewrite last_snoc.
  - by apply released_slot.
  - cbn [socket_count released]. lia.
  - done.
  - done.
  - intros Hfresh. cbn [open_fds released]. rewrite Hopen2.
    apply set_eq. intros x. rewrite elem_of_difference, elem_of_singleton.
    split; [tauto|]. intros Hx. split; [done|]. by intros ->.
Qed.

End Coverage.

(** * The statements at concrete inputs *)

#[local] Existing Instance linux_errno.
#[local] Existing Instance linux_select.

Lemma no_reoccupation_Forall (socket_id : Z) cs rs :
  Forall (λ p, reoccupies socket_id p.1 p.2 = false) (zip cs rs) →
  no_reoccupation socket_id cs rs.
Proof.
  intros Hall c r Hin. by apply (proj1 (Forall_forall _ _) Hall (c, r)).
Qed.

Lemma invalid_handle_refused_witness :
  ((slot_holds closed_once 1 INVALID_SOCKET ∨
    ∃ st0 e, ibmoon_socket_close 1 e st0 =
               Some (Result 1 0 ERROR_NONE, closed_once)) ∧
   0 <= next_socket_id closed_once ∧
   run (H := linux_errno) (SH := linux_select) [fresh_connect 4; Send 2 4 (Io_os 4 0)] closed_once =
     Some ([Result 1 2 ERROR_NONE; Result 1 4 ERROR_NONE],
           state_after [fresh_connect 4; Send 2 4 (Io_os 4 0)] closed_once) ∧
   no_reoccupation 1
     [fresh_connect 4; Send 2 4 (Io_os 4 0)]
     [Result 1 2 ERROR_NONE; Result 1 4 ERROR_NONE]) ∧
  ((∀ length os,
      ibmoon_socket_send (H := linux_errno) 1 length os
        (state_after [fresh_connect 4; Send 2 4 (Io_os 4 0)] closed_once) =
        Some (Result 0 0 ERROR_INVALID_SOCKET,
              state_after [fresh_connect 4; Send 2 4 (Io_os 4 0)] closed_once)) ∧
   (∀ buffer_len timeout_ms os,
      ibmoon_socket_receive (H := linux_errno) 1 buffer_len timeout_ms os
        (state_after [fresh_connect 4; Send 2 4 (Io_os 4 0)] closed_once) =
        Some (Result 0 0 ERROR_INVALID_SOCKET,
              state_after [fresh_connect 4; Send 2 4 (Io_os 4 0)] closed_once)) ∧
   (∀ e,
      ibmoon_socket_close 1 e
        (state_after [fresh_connect 4; Send 2 4 (Io_os 4 0)] closed_once) =
        Some (Result 0 0 ERROR_INVALID_SOCKET,
              state_after [fresh_connect 4; Send 2 4 (Io_os 4 0)] closed_once))).
Proof.
  assert (slot_holds closed_once 1 INVALID_SOCKET ∨
          ∃ st0 e, ibmoon_socket_close 1 e st0 =
                     Some (Result 1 0 ERROR_NONE, closed_once)) as H1.
  { left. split; vm_compute; reflexivity. }
  assert (0 <= next_socket_id closed_once) as H2.
  { vm_compute. discriminate. }
  assert (run (H := linux_errno) (SH := linux_select) [fresh_connect 4; Send 2 4 (Io_os 4 0)] closed_once =
     Some ([Result 1 2 ERROR_NONE; Result 1 4 ERROR_NONE],
           state_after [fresh_connect 4; Send 2 4 (Io_os 4 0)] closed_once)) as H3.
  { vm_compute. reflexivity. }
  assert (no_reoccupation 1
     [fresh_connect 4; Send 2 4 (Io_os 4 0)]
     [Result 1 2 ERROR_NONE; Result 1 4 ERROR_NONE]) as H4.
  { apply no_reoccupation_Forall. vm_compute. repeat constructor. }
  split.
  - exact (conj H1 (conj H2 (conj H3 H4))).
  - exact (invalid_handle_refused (H := linux_errno) 1 _ _ _ _ H1 H2 H3 H4).
Defined.

Lemma invalid_handle_counterexample :
  results_of [fresh_connect 3; Send 257 4 (Io_os 4 0)] init_state =
    Some [Result 1 1 ERROR_NONE; Result 1 4 ERROR_NONE] ∧
  results_of ([fresh_connect 3; Close 1 None] ++ connects 4 256 ++
              [Send 1 4 (Io_os 4 0); Receive 1 64 0 (Io_os 4 0); Close 1 None])
             init_state =
    Some ([Result 1 1 ERROR_NONE; Result 1 0 ERROR_NONE] ++
          map (λ id, Result 1 id ERROR_NONE) (seqZ 2 256) ++
          [Result 1 4 ERROR_NONE; Result 1 4 ERROR_NONE; Result 1 0 ERROR_NONE]) ∧
  Result 1 4 ERROR_NONE ≠ Result 0 0 ERROR_INVALID_SOCKET ∧
  Result 1 0 ERROR_NONE ≠ Result 0 0 ERROR_INVALID_SOCKET.
Proof.
  split_and!.
  - vm_compute. reflexivity.
  - vm_compute. reflexivity.
  - discriminate.
  - discriminate.
Qed.

Lemma identifier_slot_mapping_witness :
  (0 <= 1 ∧ 0 <= 257 ∧ ∃ k, 257 = 1 + MAX_SOCKETS * k) ∧
  ((∀ st, find_socket 1 st = read_slot (1 mod MAX_SOCKETS) st) ∧
   (∀ st sock,
      next_socket_id st = 1 → 1 < INT_MAX →
      socket_count st < MAX_SOCKETS →
      length (sockets st) = Z.to_nat MAX_SOCKETS →
      ∃ st', store_socket sock st = Some (1, st') ∧
             sockets st' = <[Z.to_nat (1 mod MAX_SOCKETS) := sock]> (sockets st) ∧
             find_socket 1 st' = Some (sock, st') ∧
             find_socket 257 st' = Some (sock, st')) ∧
   1 mod MAX_SOCKETS = 257 mod MAX_SOCKETS ∧
   (∀ st, find_socket 1 st = find_socket 257 st)).
Proof.
  assert (0 <= 1) as H1 by lia.
  assert (0 <= 257) as H2 by lia.
  assert (∃ k, 257 = 1 + MAX_SOCKETS * k) as H3 by (exists 1; reflexivity).
  split.
  - exact (conj H1 (conj H2 H3)).
  - exact (identifier_slot_mapping 1 257 H1 H2 H3).
Defined.

Lemma connect_wait_failures_witness :
  (0 < 500 ∧ in_progress (H := linux_errno) (pending_os 0 0) ∧
   0 <= socket_ret (pending_os 0 0) < FD_SETSIZE (select_h := linux_select)) ∧
  ((select_ret (pending_os 0 0) = 0 →
    ∃ st', ibmoon_socket_connect (H := linux_errno)
             "10.255.255.1" 9 500 (pending_os 0 0) init_state =
             Some (Result 0 0 ERROR_TIMEOUT, st') ∧
           same_table init_state st' ∧
           (socket_ret (pending_os 0 0) ∉ open_fds st') ∧
           trace st' = trace init_state ++
                       connect_prefix "10.255.255.1" 9 (pending_os 0 0) ++
                       [Sys_select (socket_ret (pending_os 0 0)) 500 0;
                        Sys_close (socket_ret (pending_os 0 0))]) ∧
   (0 < select_ret (pending_os 0 0) → so_error (pending_os 0 0) ≠ 0 →
    ∃ st', ibmoon_socket_connect (H := linux_errno)
             "10.255.255.1" 9 500 (pending_os 0 0) init_state =
             Some (Result 0 0 ERROR_CONNECTION_REFUSED, st') ∧
           same_table init_state st' ∧
           (socket_ret (pending_os 0 0) ∉ open_fds st') ∧
           trace st' = trace init_state ++
                       connect_prefix "10.255.255.1" 9 (pending_os 0 0) ++
                       [Sys_select (socket_ret (pending_os 0 0)) 500
                          (select_ret (pending_os 0 0));
                        Sys_getsockopt_so_error (socket_ret (pending_os 0 0))
                          (so_error (pending_os 0 0));
                        Sys_close (socket_ret (pending_os 0 0))])).
Proof.
  assert (0 < 500) as H1 by lia.
  assert (in_progress (H := linux_errno) (pending_os 0 0)) as H2.
  { unfold in_progress, pending_os. simpl. unfold INVALID_SOCKET, SOCKET_ERROR. lia. }
  assert (0 <= socket_ret (pending_os 0 0) <
          FD_SETSIZE (select_h := linux_select)) as H3.
  { split; vm_compute; reflexivity || discriminate. }
  split.
  - exact (conj H1 (conj H2 H3)).
  - exact (connect_wait_failures (H := linux_errno) (SH := linux_select)
             "10.255.255.1" 9 500 (pending_os 0 0) init_state H1 H2 H3).
Defined.

(** The bounded wait on a descriptor past [FD_SETSIZE] has no defined
    result; the same answers with [timeout_ms = 0] make no wait and
    register the socket. *)
Example connect_wait_past_fd_setsize :
  ibmoon_socket_connect "10.255.255.1" 9 500
    (Connect_os 1024 1 (-1) 115 0 0 None) init_state = None ∧
  results_of [Connect "10.255.255.1" 9 0 (Connect_os 1024 1 (-1) 115 0 0 None)]
    init_state = Some [Result 1 1 ERROR_NONE].
Proof. split; vm_compute; reflexivity. Qed.

(** Scenarios A and B of the specification: a connect in progress whose
    wait ends with the pending error [ECONNREFUSED], and one whose wait
    expires. *)
Example connect_refused_and_timed_out :
  results_of [Connect "127.0.0.1" 9999 500 (pending_os 1 111)] init_state =
    Some [Result 0 0 ERROR_CONNECTION_REFUSED] ∧
  results_of [Connect "10.255.255.1" 9 200 (pending_os 0 0)] init_state =
    Some [Result 0 0 ERROR_TIMEOUT].
Proof. split; vm_compute; reflexivity. Qed.

Lemma connect_zero_timeout_in_progress_witness :
  (in_progress (H := linux_errno) (pending_os 0 0) ∧ table_ok init_state) ∧
  ∃ r st' evs,
    ibmoon_socket_connect (H := linux_errno)
      "127.0.0.1" 9999 0 (pending_os 0 0) init_state = Some (r, st') ∧
    trace st' = trace init_state ++
                connect_prefix "127.0.0.1" 9999 (pending_os 0 0) ++ evs ∧
    forallb (λ c, negb (is_wait_call c))
            (connect_prefix "127.0.0.1" 9999 (pending_os 0 0) ++ evs) = true ∧
    Sys_fcntl_setfl (socket_ret (pending_os 0 0)) false ∈ evs ∧
    (socket_ret (pending_os 0 0) ∉ nonblock_fds st') ∧
    if decide (socket_count init_state < MAX_SOCKETS) then
      r = Result 1 (next_socket_id init_state) ERROR_NONE ∧
      evs = [Sys_fcntl_getfl (socket_ret (pending_os 0 0));
             Sys_fcntl_setfl (socket_ret (pending_os 0 0)) false] ∧
      slot_holds st' (next_socket_id init_state) (socket_ret (pending_os 0 0)) ∧
      socket_count st' = socket_count init_state + 1 ∧
      next_socket_id st' = next_socket_id init_state + 1 ∧
      socket_ret (pending_os 0 0) ∈ open_fds st'
    else
      r = Result 0 0 ERROR_UNKNOWN ∧
      evs = [Sys_fcntl_getfl (socket_ret (pending_os 0 0));
             Sys_fcntl_setfl (socket_ret (pending_os 0 0)) false;
             Sys_close (socket_ret (pending_os 0 0))] ∧
      same_table init_state st' ∧
      (socket_ret (pending_os 0 0) ∉ open_fds st').
Proof.
  assert (in_progress (H := linux_errno) (pending_os 0 0)) as H1.
  { unfold in_progress, pending_os. simpl. unfold INVALID_SOCKET, SOCKET_ERROR. lia. }
  assert (table_ok init_state) as H2.
  { repeat split; vm_compute; reflexivity || discriminate. }
  split.
  - exact (conj H1 H2).
  - exact (connect_zero_timeout_in_progress (H := linux_errno)
             "127.0.0.1" 9999 (pending_os 0 0) init_state H1 H2).
Defined.

Lemma connect_table_full_witness :
  (reaches_registration (H := linux_errno) 0
     (Connect_os 259 1 0 0 0 0 None) = true ∧
   wait_defined (H := linux_errno) (SH := linux_select) 0
     (Connect_os 259 1 0 0 0 0 None) = true ∧
   MAX_SOCKETS <= socket_count full_table) ∧
  ∃ st',
    ibmoon_socket_connect (H := linux_errno)
      "127.0.0.1" 9999 0 (Connect_os 259 1 0 0 0 0 None) full_table =
      Some (Result 0 0 ERROR_UNKNOWN, st') ∧
    store_socket (socket_ret (Connect_os 259 1 0 0 0 0 None)) full_table =
      Some (-1, full_table) ∧
    same_table full_table st' ∧
    last (trace st') =
      Some (Sys_close (socket_ret (Connect_os 259 1 0 0 0 0 None))) ∧
    Sys_socket (socket_ret (Connect_os 259 1 0 0 0 0 None)) ∈ trace st' ∧
    (socket_ret (Connect_os 259 1 0 0 0 0 None) ∉ open_fds st') ∧
    open_fds st' =
      open_fds full_table ∖ {[ socket_ret (Connect_os 259 1 0 0 0 0 None) ]}.
Proof.
  assert (reaches_registration (H := linux_errno) 0
            (Connect_os 259 1 0 0 0 0 None) = true) as H1.
  { vm_compute. reflexivity. }
  assert (wait_defined (H := linux_errno) (SH := linux_select) 0
            (Connect_os 259 1 0 0 0 0 None) = true) as Hw.
  { vm_compute. reflexivity. }
  assert (MAX_SOCKETS <= socket_count full_table) as H2.
  { vm_compute. discriminate. }
  split.
  - exact (conj H1 (conj Hw H2)).
  - exact (connect_table_full (H := linux_errno) (SH := linux_select)
             "127.0.0.1" 9999 0
             (Connect_os 259 1 0 0 0 0 None) full_table H1 Hw H2).
Defined.

(** P5 of the specification: after exactly 256 successful connects and no
    close, the next connect fails with [{false, 0, Unknown}]. *)
Example resource_ceiling :
  results_of (connects 3 256 ++ [fresh_connect 259]) init_state =
    Some (map (λ id, Result 1 id ERROR_NONE) (seqZ 1 256) ++
          [Result 0 0 ERROR_UNKNOWN]).
Proof. vm_compute. reflexivity. Qed.

Lemma close_releases_then_invalid_witness :
  (slot_holds one_connection 1 3 ∧ 3 ≠ INVALID_SOCKET ∧
   INT_MIN < socket_count one_connection ∧
   0 <= next_socket_id one_connection) ∧
  ∃ st1,
    ibmoon_socket_close 1 None one_connection =
      Some (Result 1 0 ERROR_NONE, st1) ∧
    trace st1 = trace one_connection ++ [Sys_close 3] ∧
    (3 ∉ open_fds st1) ∧
    slot_holds st1 1 INVALID_SOCKET ∧
    socket_count st1 = socket_count one_connection - 1 ∧
    occupied_slots st1 = occupied_slots one_connection - 1 ∧
    ibmoon_socket_close 1 None st1 =
      Some (Result 0 0 ERROR_INVALID_SOCKET, st1) ∧
    (∀ cs rs st2,
       run (H := linux_errno) (SH := linux_select) cs st1 = Some (rs, st2) →
       no_reoccupation 1 cs rs →
       ibmoon_socket_close 1 None st2 =
         Some (Result 0 0 ERROR_INVALID_SOCKET, st2)).
Proof.
  assert (slot_holds one_connection 1 3) as H1.
  { split; vm_compute; reflexivity. }
  assert (3 ≠ INVALID_SOCKET) as H2 by discriminate.
  assert (INT_MIN < socket_count one_connection) as H3.
  { vm_compute. reflexivity. }
  assert (0 <= next_socket_id one_connection) as H4.
  { vm_compute. discriminate. }
  split.
  - exact (conj H1 (conj H2 (conj H3 H4))).
  - exact (close_releases_then_invalid (H := linux_errno) 1 3 None None
             one_connection H1 H2 H3 H4).
Defined.

(** Scenario C of the specification, with the identifier 1 that the first
    connect returns: close succeeds, a second close is refused. *)
Example close_twice :
  results_of [fresh_connect 3; Close 1 None; Close 1 None] init_state =
    Some [Result 1 1 ERROR_NONE; Result 1 0 ERROR_NONE;
          Result 0 0 ERROR_INVALID_SOCKET].
Proof. vm_compute. reflexivity. Qed.

(** Scenario D of the specification: send and receive on a live
    identifier report the byte counts of the system. *)
Example send_then_receive :
  results_of [fresh_connect 3; Send 1 4 (Io_os 4 0);
              Receive 1 64 1000 (Io_os 4 0)] init_state =
    Some [Result 1 1 ERROR_NONE; Result 1 4 ERROR_NONE; Result 1 4 ERROR_NONE].
Proof. vm_compute. reflexivity. Qed.

Lemma receive_orderly_shutdown_witness :
  (slot_holds one_connection 1 3 ∧ 3 ≠ INVALID_SOCKET ∧
   io_ret (Io_os 0 0) = 0) ∧
  ∃ st',
    ibmoon_socket_receive (H := linux_errno) 1 64 1000 (Io_os 0 0)
      one_connection = Some (Result 0 0 ERROR_CLOSED, st') ∧
    same_table one_connection st' ∧
    open_fds st' = open_fds one_connection ∧
    errno st' = errno one_connection ∧
    last (trace st') = Some (Sys_recv 3 64 0).
Proof.
  assert (slot_holds one_connection 1 3) as H1.
  { split; vm_compute; reflexivity. }
  assert (3 ≠ INVALID_SOCKET) as H2 by discriminate.
  assert (io_ret (Io_os 0 0) = 0) as H3 by reflexivity.
  split.
  - exact (conj H1 (conj H2 H3)).
  - exact (receive_orderly_shutdown (H := linux_errno) 1 64 1000 3 (Io_os 0 0)
             one_connection H1 H2 H3).
Defined.

Lemma result_triple_shape_witness :
  call_defined (H := linux_errno) (SH := linux_select) init_state
    (Connect "10.255.255.1" 9 500 (pending_os 0 0)) ∧
  ((∀ r st', step (H := linux_errno) (SH := linux_select)
               (Connect "10.255.255.1" 9 500 (pending_os 0 0)) init_state =
               Some (r, st') → result_shape r) ∧
   (call_defined (H := linux_errno) (SH := linux_select) init_state
      (Connect "10.255.255.1" 9 500 (pending_os 0 0)) →
    ∃ r st', step (H := linux_errno) (SH := linux_select)
               (Connect "10.255.255.1" 9 500 (pending_os 0 0)) init_state =
               Some (r, st') ∧ result_shape r) ∧
   (∃ e, get_socket_error (H := linux_errno) init_state =
           Some (e, init_state) ∧ e ≠ ERROR_NONE ∧
         (e = ERROR_CONNECTION_REFUSED ∨ e = ERROR_TIMEOUT ∨
          e = ERROR_CLOSED ∨ e = ERROR_UNKNOWN))).
Proof.
  split.
  - repeat split; vm_compute; reflexivity || discriminate.
  - exact (result_triple_shape (H := linux_errno) (SH := linux_select)
             (Connect "10.255.255.1" 9 500 (pending_os 0 0)) init_state).
Defined.

Lemma store_socket_overwrites_live_slot_witness :
  (table_ok wrapped_table ∧ socket_count wrapped_table < MAX_SOCKETS ∧
   slot_holds wrapped_table (next_socket_id wrapped_table) 3 ∧
   3 ≠ INVALID_SOCKET ∧ 3 ∈ open_fds wrapped_table ∧
   259 ≠ INVALID_SOCKET) ∧
  ∃ st',
    store_socket 259 wrapped_table = Some (next_socket_id wrapped_table, st') ∧
    slot_holds st' (next_socket_id wrapped_table) 259 ∧
    trace st' = trace wrapped_table ∧
    3 ∈ open_fds st' ∧
    (259 ≠ 3 →
     (∀ i, sockets wrapped_table !! i = Some 3 →
           i = Z.to_nat (c_rem (next_socket_id wrapped_table) MAX_SOCKETS)) →
     3 ∉ sockets st') ∧
    socket_count st' = socket_count wrapped_table + 1 ∧
    occupied_slots st' = occupied_slots wrapped_table ∧
    (socket_count wrapped_table = occupied_slots wrapped_table →
     socket_count st' ≠ occupied_slots st').
Proof.
  assert (table_ok wrapped_table) as H1.
  { repeat split; vm_compute; reflexivity || discriminate. }
  assert (socket_count wrapped_table < MAX_SOCKETS) as H2.
  { vm_compute. reflexivity. }
  assert (slot_holds wrapped_table (next_socket_id wrapped_table) 3) as H3.
  { split; vm_compute; reflexivity. }
  assert (3 ≠ INVALID_SOCKET) as H4 by discriminate.
  assert (3 ∈ open_fds wrapped_table) as H5.
  { refine (bool_decide_unpack _ _). vm_compute. exact I. }
  assert (259 ≠ INVALID_SOCKET) as H6 by discriminate.
  split.
  - exact (conj H1 (conj H2 (conj H3 (conj H4 (conj H5 H6))))).
  - exact (store_socket_overwrites_live_slot 259 3 wrapped_table
             H1 H2 H3 H4 H5 H6).
Defined.

(** The collision through the interface: with identifiers 1 to 256 live and
    identifier 2 closed, the next connect returns 257 and takes the cell of
    identifier 1, whose descriptor 3 is never closed; a send on identifier 1
    then goes to the descriptor 259 of identifier 257. *)
Example collision_through_connect :
  results_of [fresh_connect 259; Send 1 4 (Io_os 4 0)] wrapped_table =
    Some [Result 1 257 ERROR_NONE; Result 1 4 ERROR_NONE] ∧
  trace (state_after [fresh_connect 259; Send 1 4 (Io_os 4 0)] wrapped_table) =
    trace wrapped_table ++
    [Sys_socket 259; Sys_fcntl_getfl 259; Sys_fcntl_setfl 259 true;
     Sys_inet_pton "127.0.0.1" 1; Sys_connect 259 9999 0;
     Sys_fcntl_getfl 259; Sys_fcntl_setfl 259 false; Sys_send 259 4 4] ∧
  3 ∈ open_fds (state_after [fresh_connect 259] wrapped_table) ∧
  3 ∉ sockets (state_after [fresh_connect 259] wrapped_table).
Proof.
  split_and!.
  - vm_compute. reflexivity.
  - vm_compute. reflexivity.
  - refine (bool_decide_unpack _ _). vm_compute. exact I.
  - refine (bool_decide_unpack _ _). vm_compute. exact I.
Qed.

(** ** The further properties at concrete inputs *)

Lemma send_reports_os_outcome_witness :
  (slot_holds one_connection 1 3 ∧ 3 ≠ INVALID_SOCKET) ∧
  ∃ st',
    ibmoon_socket_send (H := linux_errno) 1 4 (Io_os 2 0) one_connection =
      Some (if io_ret (Io_os 2 0) =? SOCKET_ERROR
            then Result 0 0 (socket_error_of (H := linux_errno)
                               (io_errno (Io_os 2 0)))
            else Result 1 (io_ret (Io_os 2 0)) ERROR_NONE, st') ∧
    trace st' = trace one_connection ++ [Sys_send 3 4 (io_ret (Io_os 2 0))] ∧
    same_table one_connection st' ∧
    open_fds st' = open_fds one_connection ∧
    nonblock_fds st' = nonblock_fds one_connection.
Proof.
  assert (slot_holds one_connection 1 3) as H1.
  { split; vm_compute; reflexivity. }
  assert (3 ≠ INVALID_SOCKET) as H2 by discriminate.
  split.
  - exact (conj H1 H2).
  - exact (send_reports_os_outcome (H := linux_errno) 1 4 3 (Io_os 2 0)
             one_connection H1 H2).
Defined.

Lemma receive_reports_os_outcome_witness :
  (slot_holds one_connection 1 3 ∧ 3 ≠ INVALID_SOCKET) ∧
  ∃ st',
    ibmoon_socket_receive (H := linux_errno) 1 64 1000 (Io_os (-1) 110)
      one_connection =
      Some (if io_ret (Io_os (-1) 110) =? SOCKET_ERROR
            then Result 0 0 (socket_error_of (H := linux_errno)
                               (io_errno (Io_os (-1) 110)))
            else if io_ret (Io_os (-1) 110) =? 0 then Result 0 0 ERROR_CLOSED
            else Result 1 (io_ret (Io_os (-1) 110)) ERROR_NONE, st') ∧
    trace st' =
      trace one_connection ++
      (if 0 <? 1000 then [Sys_setsockopt_rcvtimeo 3 1000] else []) ++
      [Sys_recv 3 64 (io_ret (Io_os (-1) 110))] ∧
    same_table one_connection st' ∧
    open_fds st' = open_fds one_connection.
Proof.
  assert (slot_holds one_connection 1 3) as H1.
  { split; vm_compute; reflexivity. }
  assert (3 ≠ INVALID_SOCKET) as H2 by discriminate.
  split.
  - exact (conj H1 H2).
  - exact (receive_reports_os_outcome (H := linux_errno) 1 64 1000 3
             (Io_os (-1) 110) one_connection H1 H2).
Defined.

Lemma nonpositive_timeout_is_zero_witness :
  -5 <= 0 ∧
  ((∀ host port os st,
      ibmoon_socket_connect (H := linux_errno) host port (-5) os st =
      ibmoon_socket_connect (H := linux_errno) host port 0 os st) ∧
   (∀ socket_id buffer_len os st,
      ibmoon_socket_receive (H := linux_errno) socket_id buffer_len (-5) os st =
      ibmoon_socket_receive (H := linux_errno) socket_id buffer_len 0 os st)).
Proof.
  assert (-5 <= 0) as H1 by lia.
  split.
  - exact H1.
  - exact (nonpositive_timeout_is_zero (H := linux_errno) (-5) H1).
Defined.

Lemma connect_setup_failures_witness :
  (socket_ret (Connect_os 3 0 0 0 0 0 None) ≠ INVALID_SOCKET ∧
   inet_pton_ret (Connect_os 3 0 0 0 0 0 None) <= 0) ∧
  ((socket_ret (Connect_os 3 0 0 0 0 0 None) = INVALID_SOCKET →
    ibmoon_socket_connect (H := linux_errno) "localhost" 80 0
      (Connect_os 3 0 0 0 0 0 None) init_state =
      Some (Result 0 0 ERROR_UNKNOWN,
            set_trace (trace init_state ++ [Sys_socket INVALID_SOCKET])
              init_state)) ∧
   (socket_ret (Connect_os 3 0 0 0 0 0 None) ≠ INVALID_SOCKET →
    inet_pton_ret (Connect_os 3 0 0 0 0 0 None) <= 0 →
    ∃ st',
      ibmoon_socket_connect (H := linux_errno) "localhost" 80 0
        (Connect_os 3 0 0 0 0 0 None) init_state =
        Some (Result 0 0 ERROR_UNKNOWN, st') ∧
      same_table init_state st' ∧
      trace st' =
        trace init_state ++
        [Sys_socket (socket_ret (Connect_os 3 0 0 0 0 0 None));
         Sys_fcntl_getfl (socket_ret (Connect_os 3 0 0 0 0 0 None));
         Sys_fcntl_setfl (socket_ret (Connect_os 3 0 0 0 0 0 None)) true;
         Sys_inet_pton "localhost" (inet_pton_ret (Connect_os 3 0 0 0 0 0 None));
         Sys_close (socket_ret (Connect_os 3 0 0 0 0 0 None))] ∧
      open_fds st' =
        open_fds init_state ∖ {[ socket_ret (Connect_os 3 0 0 0 0 0 None) ]})).
Proof.
  split.
  - split; [discriminate|by vm_compute].
  - exact (connect_setup_failures (H := linux_errno) "localhost" 80 0
             (Connect_os 3 0 0 0 0 0 None) init_state).
Defined.

Lemma connect_immediate_failure_witness :
  (socket_ret (Connect_os 3 1 (-1) 111 0 0 None) ≠ INVALID_SOCKET ∧
   0 < inet_pton_ret (Connect_os 3 1 (-1) 111 0 0 None) ∧
   connect_ret (Connect_os 3 1 (-1) 111 0 0 None) = SOCKET_ERROR ∧
   connect_errno (Connect_os 3 1 (-1) 111 0 0 None) ≠
     EINPROGRESS (errno_h := linux_errno)) ∧
  ∃ st',
    ibmoon_socket_connect (H := linux_errno) "127.0.0.1" 9999 500
      (Connect_os 3 1 (-1) 111 0 0 None) init_state =
      Some (Result 0 0
              (socket_error_of (H := linux_errno)
                 (match close_errno (Connect_os 3 1 (-1) 111 0 0 None) with
                  | Some e => e
                  | None => connect_errno (Connect_os 3 1 (-1) 111 0 0 None)
                  end)), st') ∧
    same_table init_state st' ∧
    trace st' = trace init_state ++
                connect_prefix "127.0.0.1" 9999
                  (Connect_os 3 1 (-1) 111 0 0 None) ++
                [Sys_close (socket_ret (Connect_os 3 1 (-1) 111 0 0 None))] ∧
    open_fds st' =
      open_fds init_state ∖ {[ socket_ret (Connect_os 3 1 (-1) 111 0 0 None) ]}.
Proof.
  assert (socket_ret (Connect_os 3 1 (-1) 111 0 0 None) ≠ INVALID_SOCKET) as H1
    by discriminate.
  assert (0 < inet_pton_ret (Connect_os 3 1 (-1) 111 0 0 None)) as H2
    by reflexivity.
  assert (connect_ret (Connect_os 3 1 (-1) 111 0 0 None) = SOCKET_ERROR) as H3
    by reflexivity.
  assert (connect_errno (Connect_os 3 1 (-1) 111 0 0 None) ≠
          EINPROGRESS (errno_h := linux_errno)) as H4 by discriminate.
  split.
  - exact (conj H1 (conj H2 (conj H3 H4))).
  - exact (connect_immediate_failure (H := linux_errno) "127.0.0.1" 9999 500
             (Connect_os 3 1 (-1) 111 0 0 None) init_state H1 H2 H3 H4).
Defined.

Lemma connect_select_error_witness :
  (0 < 500 ∧ in_progress (H := linux_errno) (pending_os (-1) 0) ∧
   0 <= socket_ret (pending_os (-1) 0) < FD_SETSIZE (select_h := linux_select) ∧
   select_ret (pending_os (-1) 0) < 0) ∧
  ∃ st',
    ibmoon_socket_connect (H := linux_errno) "127.0.0.1" 9999 500
      (pending_os (-1) 0) init_state =
      Some (Result 0 0 ERROR_UNKNOWN, st') ∧
    same_table init_state st' ∧
    trace st' = trace init_state ++
                connect_prefix "127.0.0.1" 9999 (pending_os (-1) 0) ++
                [Sys_select (socket_ret (pending_os (-1) 0)) 500
                   (select_ret (pending_os (-1) 0));
                 Sys_close (socket_ret (pending_os (-1) 0))] ∧
    open_fds st' = open_fds init_state ∖ {[ socket_ret (pending_os (-1) 0) ]}.
Proof.
  assert (0 < 500) as H1 by lia.
  assert (in_progress (H := linux_errno) (pending_os (-1) 0)) as H2.
  { unfold in_progress, pending_os. simpl. unfold INVALID_SOCKET, SOCKET_ERROR. lia. }
  assert (0 <= socket_ret (pending_os (-1) 0) <
          FD_SETSIZE (select_h := linux_select)) as Hb.
  { split; vm_compute; reflexivity || discriminate. }
  assert (select_ret (pending_os (-1) 0) < 0) as H3 by reflexivity.
  split.
  - exact (conj H1 (conj H2 (conj Hb H3))).
  - exact (connect_select_error (H := linux_errno) (SH := linux_select)
             "127.0.0.1" 9999 500 (pending_os (-1) 0) init_state H1 H2 Hb H3).
Defined.

Lemma connect_success_registers_witness :
  (reaches_registration (H := linux_errno) 500 (pending_os 1 0) = true ∧
   wait_defined (H := linux_errno) (SH := linux_select) 500 (pending_os 1 0) =
     true ∧
   table_ok init_state ∧ socket_count init_state < MAX_SOCKETS) ∧
  ∃ st',
    ibmoon_socket_connect (H := linux_errno) (SH := linux_select)
      "127.0.0.1" 9999 500 (pending_os 1 0) init_state =
      Some (Result 1 (next_socket_id init_state) ERROR_NONE, st') ∧
    slot_holds st' (next_socket_id init_state) (socket_ret (pending_os 1 0)) ∧
    (∀ b v, c_rem b MAX_SOCKETS ≠ c_rem (next_socket_id init_state) MAX_SOCKETS →
            slot_holds st' b v ↔ slot_holds init_state b v) ∧
    socket_count st' = socket_count init_state + 1 ∧
    next_socket_id st' = next_socket_id init_state + 1 ∧
    open_fds st' = {[ socket_ret (pending_os 1 0) ]} ∪ open_fds init_state ∧
    (socket_ret (pending_os 1 0) ∉ nonblock_fds st') ∧
    trace st' = trace init_state ++
                connect_prefix "127.0.0.1" 9999 (pending_os 1 0) ++
                connect_wait 500 (pending_os 1 0) ++
                [Sys_fcntl_getfl (socket_ret (pending_os 1 0));
                 Sys_fcntl_setfl (socket_ret (pending_os 1 0)) false].
Proof.
  assert (reaches_registration (H := linux_errno) 500 (pending_os 1 0) = true)
    as H1 by (vm_compute; reflexivity).
  assert (wait_defined (H := linux_errno) (SH := linux_select) 500
            (pending_os 1 0) = true) as Hw by (vm_compute; reflexivity).
  assert (table_ok init_state) as H2
    by (repeat split; vm_compute; reflexivity || discriminate).
  assert (socket_count init_state < MAX_SOCKETS) as H3 by reflexivity.
  split.
  - exact (conj H1 (conj Hw (conj H2 H3))).
  - exact (connect_success_registers (H := linux_errno) (SH := linux_select)
             "127.0.0.1" 9999 500 (pending_os 1 0) init_state H1 Hw H2 H3).
Defined.

Lemma connect_succeeds_iff_witness :
  (table_ok full_table ∧
   ibmoon_socket_connect (H := linux_errno) "127.0.0.1" 9999 0 (ready_os 259)
     full_table =
     Some (Result 0 0 ERROR_UNKNOWN,
           state_after [fresh_connect 259] full_table)) ∧
  (success (Result 0 0 ERROR_UNKNOWN) = 1 ↔
   reaches_registration (H := linux_errno) 0 (ready_os 259) = true ∧
   socket_count full_table < MAX_SOCKETS).
Proof.
  assert (table_ok full_table) as H1
    by (repeat split; vm_compute; reflexivity || discriminate).
  assert (ibmoon_socket_connect (H := linux_errno) "127.0.0.1" 9999 0
            (ready_os 259) full_table =
          Some (Result 0 0 ERROR_UNKNOWN,
                state_after [fresh_connect 259] full_table)) as H2
    by (vm_compute; reflexivity).
  split.
  - exact (conj H1 H2).
  - exact (connect_succeeds_iff (H := linux_errno) "127.0.0.1" 9999 0
             (ready_os 259) full_table _ _ H1 H2).
Defined.

Lemma connect_failure_releases_socket_witness :
  (ibmoon_socket_connect (H := linux_errno) "127.0.0.1" 9999 0 (ready_os 259)
     full_table =
     Some (Result 0 0 ERROR_UNKNOWN,
           state_after [fresh_connect 259] full_table) ∧
   success (Result 0 0 ERROR_UNKNOWN) = 0 ∧
   0 <= next_socket_id full_table) ∧
  (value (Result 0 0 ERROR_UNKNOWN) = 0 ∧
   same_table full_table (state_after [fresh_connect 259] full_table) ∧
   (socket_ret (ready_os 259) = INVALID_SOCKET →
    open_fds (state_after [fresh_connect 259] full_table) =
      open_fds full_table) ∧
   (socket_ret (ready_os 259) ≠ INVALID_SOCKET →
    open_fds (state_after [fresh_connect 259] full_table) =
      open_fds full_table ∖ {[ socket_ret (ready_os 259) ]} ∧
    (socket_ret (ready_os 259) ∉
       open_fds (state_after [fresh_connect 259] full_table)) ∧
    last (trace (state_after [fresh_connect 259] full_table)) =
      Some (Sys_close (socket_ret (ready_os 259))))).
Proof.
  assert (ibmoon_socket_connect (H := linux_errno) "127.0.0.1" 9999 0
            (ready_os 259) full_table =
          Some (Result 0 0 ERROR_UNKNOWN,
                state_after [fresh_connect 259] full_table)) as H1
    by (vm_compute; reflexivity).
  assert (success (Result 0 0 ERROR_UNKNOWN) = 0) as H2 by reflexivity.
  assert (0 <= next_socket_id full_table) as H3 by (vm_compute; discriminate).
  split.
  - exact (conj H1 (conj H2 H3)).
  - exact (connect_failure_releases_socket (H := linux_errno) "127.0.0.1" 9999 0
             (ready_os 259) full_table _ _ H1 H2 H3).
Defined.

Lemma failure_leaves_table_witness :
  (step (H := linux_errno) (Close 1 None) closed_once =
     Some (Result 0 0 ERROR_INVALID_SOCKET, closed_once) ∧
   0 <= next_socket_id closed_once) ∧
  ((success (Result 0 0 ERROR_INVALID_SOCKET) = 0 →
    same_table closed_once closed_once) ∧
   True).
Proof.
  assert (step (H := linux_errno) (Close 1 None) closed_once =
          Some (Result 0 0 ERROR_INVALID_SOCKET, closed_once)) as H1
    by (vm_compute; reflexivity).
  assert (0 <= next_socket_id closed_once) as H2 by (vm_compute; discriminate).
  split.
  - exact (conj H1 H2).
  - exact (failure_leaves_table (H := linux_errno) (Close 1 None) closed_once
             _ _ H1 H2).
Defined.

Lemma step_touches_one_cell_witness :
  (step (H := linux_errno) (fresh_connect 3) init_state =
     Some (Result 1 1 ERROR_NONE, one_connection) ∧
   0 <= next_socket_id init_state) ∧
  (length (sockets one_connection) = length (sockets init_state) ∧
   ∀ i, touched_cell (fresh_connect 3) (Result 1 1 ERROR_NONE) ≠ Some i →
        sockets one_connection !! i = sockets init_state !! i).
Proof.
  assert (step (H := linux_errno) (fresh_connect 3) init_state =
          Some (Result 1 1 ERROR_NONE, one_connection)) as H1
    by (vm_compute; reflexivity).
  assert (0 <= next_socket_id init_state) as H2 by (vm_compute; discriminate).
  split.
  - exact (conj H1 H2).
  - exact (step_touches_one_cell (H := linux_errno) (fresh_connect 3) init_state
             _ _ H1 H2).
Defined.

Lemma identifiers_consecutive_witness :
  (run (H := linux_errno) (SH := linux_select) [fresh_connect 3; Close 1 None; fresh_connect 4]
     init_state =
     Some ([Result 1 1 ERROR_NONE; Result 1 0 ERROR_NONE; Result 1 2 ERROR_NONE],
           state_after [fresh_connect 3; Close 1 None; fresh_connect 4]
             init_state) ∧
   0 <= next_socket_id init_state) ∧
  (next_socket_id init_state <=
     next_socket_id (state_after [fresh_connect 3; Close 1 None; fresh_connect 4]
                       init_state) ∧
   connect_ids [fresh_connect 3; Close 1 None; fresh_connect 4]
     [Result 1 1 ERROR_NONE; Result 1 0 ERROR_NONE; Result 1 2 ERROR_NONE] =
     seqZ (next_socket_id init_state)
       (next_socket_id (state_after [fresh_connect 3; Close 1 None; fresh_connect 4]
                          init_state) - next_socket_id init_state)).
Proof.
  assert (run (H := linux_errno) (SH := linux_select) [fresh_connect 3; Close 1 None; fresh_connect 4]
            init_state =
          Some ([Result 1 1 ERROR_NONE; Result 1 0 ERROR_NONE;
                 Result 1 2 ERROR_NONE],
                state_after [fresh_connect 3; Close 1 None; fresh_connect 4]
                  init_state)) as H1 by (vm_compute; reflexivity).
  assert (0 <= next_socket_id init_state) as H2 by (vm_compute; discriminate).
  split.
  - exact (conj H1 H2).
  - exact (identifiers_consecutive (H := linux_errno) _ _ _ _ H1 H2).
Defined.

Lemma socket_count_bounded_witness :
  (run (H := linux_errno) (SH := linux_select) [fresh_connect 259; Close 1 None] full_table =
     Some ([Result 0 0 ERROR_UNKNOWN; Result 1 0 ERROR_NONE],
           state_after [fresh_connect 259; Close 1 None] full_table) ∧
   0 <= next_socket_id full_table ∧
   socket_count full_table <= MAX_SOCKETS) ∧
  socket_count (state_after [fresh_connect 259; Close 1 None] full_table) <=
    MAX_SOCKETS.
Proof.
  assert (run (H := linux_errno) (SH := linux_select) [fresh_connect 259; Close 1 None] full_table =
          Some ([Result 0 0 ERROR_UNKNOWN; Result 1 0 ERROR_NONE],
                state_after [fresh_connect 259; Close 1 None] full_table)) as H1
    by (vm_compute; reflexivity).
  assert (0 <= next_socket_id full_table) as H2 by (vm_compute; discriminate).
  assert (socket_count full_table <= MAX_SOCKETS) as H3
    by (vm_compute; discriminate).
  split.
  - exact (conj H1 (conj H2 H3)).
  - exact (socket_count_bounded (H := linux_errno) _ _ _ _ H1 H2 H3).
Defined.

Lemma occupied_at_most_counted_witness :
  (run (H := linux_errno) (SH := linux_select) [Close 1 None; fresh_connect 259] full_table =
     Some ([Result 1 0 ERROR_NONE; Result 1 257 ERROR_NONE],
           state_after [Close 1 None; fresh_connect 259] full_table) ∧
   0 <= next_socket_id full_table ∧
   occupied_slots full_table <= socket_count full_table) ∧
  occupied_slots (state_after [Close 1 None; fresh_connect 259] full_table) <=
    socket_count (state_after [Close 1 None; fresh_connect 259] full_table).
Proof.
  assert (run (H := linux_errno) (SH := linux_select) [Close 1 None; fresh_connect 259] full_table =
          Some ([Result 1 0 ERROR_NONE; Result 1 257 ERROR_NONE],
                state_after [Close 1 None; fresh_connect 259] full_table)) as H1
    by (vm_compute; reflexivity).
  assert (0 <= next_socket_id full_table) as H2 by (vm_compute; discriminate).
  assert (occupied_slots full_table <= socket_count full_table) as H3
    by (vm_compute; discriminate).
  split.
  - exact (conj H1 (conj H2 H3)).
  - exact (occupied_at_most_counted (H := linux_errno) _ _ _ _ H1 H2 H3).
Defined.

Lemma table_inv_preserved_witness :
  (run (H := linux_errno) (SH := linux_select) [fresh_connect 3; Send 1 4 (Io_os 4 0); Close 1 None]
     all_closed =
     Some ([Result 1 1 ERROR_NONE; Result 1 4 ERROR_NONE; Result 1 0 ERROR_NONE],
           state_after [fresh_connect 3; Send 1 4 (Io_os 4 0); Close 1 None]
             all_closed) ∧
   0 <= next_socket_id all_closed ∧
   table_inv all_closed ∧
   fresh_run (H := linux_errno) (SH := linux_select)
     [fresh_connect 3; Send 1 4 (Io_os 4 0); Close 1 None] all_closed) ∧
  table_inv (state_after [fresh_connect 3; Send 1 4 (Io_os 4 0); Close 1 None]
               all_closed).
Proof.
  assert (run (H := linux_errno) (SH := linux_select)
            [fresh_connect 3; Send 1 4 (Io_os 4 0); Close 1 None] all_closed =
          Some ([Result 1 1 ERROR_NONE; Result 1 4 ERROR_NONE;
                 Result 1 0 ERROR_NONE],
                state_after [fresh_connect 3; Send 1 4 (Io_os 4 0); Close 1 None]
                  all_closed)) as H1 by (vm_compute; reflexivity).
  assert (0 <= next_socket_id all_closed) as H2 by (vm_compute; discriminate).
  assert (table_inv all_closed) as H3.
  { apply table_inv_sentinel. vm_compute. reflexivity. }
  assert (fresh_run (H := linux_errno) (SH := linux_select)
            [fresh_connect 3; Send 1 4 (Io_os 4 0); Close 1 None] all_closed)
    as H4.
  { split.
    - refine (bool_decide_unpack _ _). vm_compute. exact I.
    - vm_compute. tauto. }
  split.
  - exact (conj H1 (conj H2 (conj H3 H4))).
  - exact (table_inv_preserved (H := linux_errno) _ _ _ _ H1 H2 H3 H4).
Defined.

Lemma negative_identifier_unchecked_witness :
  (-1 < 0 ∧ c_rem (-1) MAX_SOCKETS ≠ 0) ∧
  ((c_rem (-1) MAX_SOCKETS ≠ 0 →
    c_rem (-1) MAX_SOCKETS < 0 ∧
    ∀ st,
      (∀ length os,
         ibmoon_socket_send (H := linux_errno) (-1) length os st = None) ∧
      (∀ buffer_len timeout_ms os,
         ibmoon_socket_receive (H := linux_errno) (-1) buffer_len timeout_ms os
           st = None) ∧
      (∀ e, ibmoon_socket_close (-1) e st = None)) ∧
   (c_rem (-1) MAX_SOCKETS = 0 →
    ∀ st,
      (∀ length os,
         ibmoon_socket_send (H := linux_errno) (-1) length os st =
         ibmoon_socket_send (H := linux_errno) 0 length os st) ∧
      (∀ buffer_len timeout_ms os,
         ibmoon_socket_receive (H := linux_errno) (-1) buffer_len timeout_ms os
           st =
         ibmoon_socket_receive (H := linux_errno) 0 buffer_len timeout_ms os st) ∧
      (∀ e, ibmoon_socket_close (-1) e st = ibmoon_socket_close 0 e st))).
Proof.
  assert (-1 < 0) as H1 by lia.
  split.
  - split; [exact H1|discriminate].
  - exact (negative_identifier_unchecked (H := linux_errno) (-1) H1).
Defined.

Lemma remove_socket_idempotent_witness :
  remove_socket 1 None one_connection =
    Some (tt, released 1 3 None one_connection) ∧
  remove_socket 1 (Some 9) (released 1 3 None one_connection) =
    Some (tt, released 1 3 None one_connection).
Proof.
  assert (remove_socket 1 None one_connection =
          Some (tt, released 1 3 None one_connection)) as H1
    by (vm_compute; reflexivity).
  split.
  - exact H1.
  - exact (remove_socket_idempotent 1 None (Some 9) one_connection _ H1).
Defined.

Lemma close_makes_room_witness :
  (table_ok full_table ∧ socket_count full_table = MAX_SOCKETS ∧
   slot_holds full_table 2 4 ∧ 4 ≠ INVALID_SOCKET ∧
   reaches_registration (H := linux_errno) 0 (ready_os 259) = true ∧
   wait_defined (H := linux_errno) (SH := linux_select) 0 (ready_os 259) =
     true) ∧
  ∃ st1 st2,
    ibmoon_socket_close 2 None full_table = Some (Result 1 0 ERROR_NONE, st1) ∧
    ibmoon_socket_connect (H := linux_errno) (SH := linux_select)
      "127.0.0.1" 9999 0 (ready_os 259)
      st1 = Some (Result 1 (next_socket_id full_table) ERROR_NONE, st2) ∧
    socket_count st2 = MAX_SOCKETS ∧
    slot_holds st2 (next_socket_id full_table) (socket_ret (ready_os 259)) ∧
    (c_rem 2 MAX_SOCKETS ≠ c_rem (next_socket_id full_table) MAX_SOCKETS →
     slot_holds st2 2 INVALID_SOCKET).
Proof.
  assert (table_ok full_table) as H1
    by (repeat split; vm_compute; reflexivity || discriminate).
  assert (socket_count full_table = MAX_SOCKETS) as H2
    by (vm_compute; reflexivity).
  assert (slot_holds full_table 2 4) as H3 by (split; vm_compute; reflexivity).
  assert (4 ≠ INVALID_SOCKET) as H4 by discriminate.
  assert (reaches_registration (H := linux_errno) 0 (ready_os 259) = true) as H5
    by (vm_compute; reflexivity).
  assert (wait_defined (H := linux_errno) (SH := linux_select) 0
            (ready_os 259) = true) as H6 by (vm_compute; reflexivity).
  split.
  - exact (conj H1 (conj H2 (conj H3 (conj H4 (conj H5 H6))))).
  - exact (close_makes_room (H := linux_errno) (SH := linux_select)
             2 4 None "127.0.0.1" 9999 0
             (ready_os 259) full_table H1 H2 H3 H4 H5 H6).
Defined.

Lemma connect_then_transfer_witness :
  (reaches_registration (H := linux_errno) 0 (ready_os 3) = true ∧
   wait_defined (H := linux_errno) (SH := linux_select) 0 (ready_os 3) = true ∧
   table_ok init_state ∧ socket_count init_state < MAX_SOCKETS) ∧
  ∃ st1,
    ibmoon_socket_connect (H := linux_errno) (SH := linux_select)
      "127.0.0.1" 9999 0 (ready_os 3) init_state =
      Some (Result 1 (next_socket_id init_state) ERROR_NONE, st1) ∧
    ∀ cs crs st2,
      run (H := linux_errno) (SH := linux_select) cs st1 = Some (crs, st2) →
      untouched (Z.to_nat (c_rem (next_socket_id init_state) MAX_SOCKETS))
        cs crs →
      (∃ rs st3,
         ibmoon_socket_send (H := linux_errno) (next_socket_id init_state) 4
           (Io_os 4 0) st2 = Some (rs, st3) ∧
         last (trace st3) =
           Some (Sys_send (socket_ret (ready_os 3)) 4 (io_ret (Io_os 4 0)))) ∧
      (∃ rr st3,
         ibmoon_socket_receive (H := linux_errno) (next_socket_id init_state)
           64 1000 (Io_os 4 0) st2 = Some (rr, st3) ∧
         last (trace st3) =
           Some (Sys_recv (socket_ret (ready_os 3)) 64 (io_ret (Io_os 4 0)))).
Proof.
  assert (reaches_registration (H := linux_errno) 0 (ready_os 3) = true) as H1
    by (vm_compute; reflexivity).
  assert (wait_defined (H := linux_errno) (SH := linux_select) 0
            (ready_os 3) = true) as Hw by (vm_compute; reflexivity).
  assert (table_ok init_state) as H2
    by (repeat split; vm_compute; reflexivity || discriminate).
  assert (socket_count init_state < MAX_SOCKETS) as H3 by reflexivity.
  split.
  - exact (conj H1 (conj Hw (conj H2 H3))).
  - exact (connect_then_transfer (H := linux_errno) (SH := linux_select)
             "127.0.0.1" 9999 0 4 64 1000
             (ready_os 3) (Io_os 4 0) (Io_os 4 0) init_state H1 Hw H2 H3).
Defined.

Lemma connect_close_round_trip_witness :
  (reaches_registration (H := linux_errno) 0 (ready_os 3) = true ∧
   wait_defined (H := linux_errno) (SH := linux_select) 0 (ready_os 3) = true ∧
   table_ok init_state ∧ socket_count init_state < MAX_SOCKETS) ∧
  ∃ st1 st2,
    ibmoon_socket_connect (H := linux_errno) (SH := linux_select)
      "127.0.0.1" 9999 0 (ready_os 3)
      init_state = Some (Result 1 (next_socket_id init_state) ERROR_NONE, st1) ∧
    ibmoon_socket_close (next_socket_id init_state) None st1 =
      Some (Result 1 0 ERROR_NONE, st2) ∧
    last (trace st2) = Some (Sys_close (socket_ret (ready_os 3))) ∧
    slot_holds st2 (next_socket_id init_state) INVALID_SOCKET ∧
    socket_count st2 = socket_count init_state ∧
    next_socket_id st2 = next_socket_id init_state + 1 ∧
    open_fds st2 = open_fds init_state ∖ {[ socket_ret (ready_os 3) ]} ∧
    (socket_ret (ready_os 3) ∉ open_fds init_state →
     open_fds st2 = open_fds init_state).
Proof.
  assert (reaches_registration (H := linux_errno) 0 (ready_os 3) = true) as H1
    by (vm_compute; reflexivity).
  assert (wait_defined (H := linux_errno) (SH := linux_select) 0
            (ready_os 3) = true) as Hw by (vm_compute; reflexivity).
  assert (table_ok init_state) as H2
    by (repeat split; vm_compute; reflexivity || discriminate).
  assert (socket_count init_state < MAX_SOCKETS) as H3 by reflexivity.
  split.
  - exact (conj H1 (conj Hw (conj H2 H3))).
  - exact (connect_close_round_trip (H := linux_errno) (SH := linux_select)
             "127.0.0.1" 9999 0 None
             (ready_os 3) init_state H1 Hw H2 H3).
Defined.
